(** * CG-project: a shallow embedding of the solar-system simulator

    The Python sources [planet.py], [camera.py], [renderer.py] and [main.py]
    are embedded as Rocq functions.  Python floats (and numpy's float32
    vectors) are read as exact real numbers; the global state the code
    mutates ([np.random], the texture table of the renderer, the OpenGL
    command stream) is passed explicitly. *)

From Stdlib Require Import Reals Lra Lia ZArith List.
From stdpp Require Import base gmap strings.
Import ListNotations.

Local Open Scope R_scope.

(** ** Results of calls that may raise *)

Inductive outcome (A : Type) : Type :=
| Returned (a : A)
| Raised (e : string).
Arguments Returned {A} a.
Arguments Raised {A} e.

(** A computation over a mutable state [S] that returns or raises.  What the
    computation did to the state before raising is kept, as in Python. *)
Definition M (S A : Type) : Type := S -> outcome A * S.

#[export] Instance M_ret {S} : MRet (M S) :=
  fun A (a : A) s => (Returned a, s).

#[export] Instance M_bind {S} : MBind (M S) :=
  fun A B (k : A -> M S B) (m : M S A) s =>
    match m s with
    | (Returned a, s') => k a s'
    | (Raised e, s') => (Raised e, s')
    end.

(** [try: body  except Exception as e: handler e] *)
Definition try_except {S A} (body : M S A) (handler : string -> M S A) : M S A :=
  fun s => match body s with
           | (Returned a, s') => (Returned a, s')
           | (Raised e, s') => handler e s'
           end.

(** ** numpy's global random generator

    [np.random] is a library outside the repository: its state and its step
    are parameters.  [random_sample] is the draw in [[0,1)] every other
    distribution is built from; [np.random.uniform(low, high)] is
    [low + (high - low) * random_sample()]. *)

Class NumpyRandom : Type := {
  RandomState : Type;
  seed : Z -> RandomState;
  random_sample : RandomState -> R * RandomState;
  random_sample_range : forall s, 0 <= fst (random_sample s) < 1
}.

Definition uniform `{NumpyRandom} (low high : R) (s : RandomState) : R * RandomState :=
  let (u, s') := random_sample s in (low + (high - low) * u, s').

Definition np_random_uniform `{NumpyRandom} (low high : R) : M RandomState R :=
  fun s => let (a, s') := uniform low high s in (Returned a, s').

(** ** The OpenGL command stream *)

Inductive GLenum : Type :=
| GL_TEXTURE_2D | GL_LIGHTING | GL_LINE_LOOP | GL_POINTS
| GLU_SMOOTH | GL_TRUE
| GL_TEXTURE_WRAP_S | GL_TEXTURE_WRAP_T | GL_REPEAT
| GL_TEXTURE_MIN_FILTER | GL_TEXTURE_MAG_FILTER | GL_LINEAR
| GL_RGB | GL_UNSIGNED_BYTE.

Record Quadric : Type := mkQuadric {
  quadric_normals : option GLenum;
  quadric_texture : bool
}.

Inductive GLCommand : Type :=
| glPushMatrix
| glPopMatrix
| glTranslatef (x y z : R)
| glRotatef (angle x y z : R)
| glEnable (cap : GLenum)
| glDisable (cap : GLenum)
| glBindTexture (target : GLenum) (texture : Z)
| glColor3f (r g b : R)
| glColor4f (r g b a : R)
| gluSphere (q : Quadric) (radius : R) (slices stacks : Z)
| glBegin (mode : GLenum)
| glEnd
| glVertex3f (x y z : R)
| glPointSize (size : R)
| gluLookAt (eyeX eyeY eyeZ centerX centerY centerZ upX upY upZ : R)
| glTexParameter (target pname param : GLenum)
| glTexImage2D (target : GLenum) (level : Z) (internalformat : GLenum)
    (width height border : Z) (format type : GLenum) (pixels : list Z)
| glGenerateMipmap (target : GLenum).

(** The points a command stream hands to [glVertex3f], in order. *)
Fixpoint vertices (cmds : list GLCommand) : list (R * R * R) :=
  match cmds with
  | [] => []
  | glVertex3f x y z :: rest => (x, y, z) :: vertices rest
  | _ :: rest => vertices rest
  end.

(** The primitives a command stream opens with [glBegin], in order. *)
Fixpoint primitives (cmds : list GLCommand) : list GLenum :=
  match cmds with
  | [] => []
  | glBegin mode :: rest => mode :: primitives rest
  | _ :: rest => primitives rest
  end.

(** ** planet.py *)

Module Planet.

Record t : Type := mk {
  name : string;
  radius : R;
  distance : R;
  orbit_speed : R;
  rotation_speed : R;
  texture_id : Z;
  color : R * R * R;
  orbit_angle : R;
  rotation_angle : R;
  quadric : Quadric
}.

Definition default_color : R * R * R := (0.8, 0.8, 0.8).

Definition gluNewQuadric : Quadric := mkQuadric None false.
Definition gluQuadricNormals (q : Quadric) (n : GLenum) : Quadric :=
  mkQuadric (Some n) (quadric_texture q).
Definition gluQuadricTexture (q : Quadric) (b : bool) : Quadric :=
  mkQuadric (quadric_normals q) b.

(** [Planet.__init__]: the parameters are stored as given, the two angles are
    two successive draws of [np.random.uniform(0, 360)]. *)
Definition __init__ `{NumpyRandom} (name : string) (radius distance : R)
    (orbit_speed rotation_speed : R) (texture_id : Z) (color : R * R * R)
  : M RandomState t :=
  orbit_angle ← np_random_uniform 0 360;
  rotation_angle ← np_random_uniform 0 360;
  let quadric := gluNewQuadric in
  let quadric := gluQuadricNormals quadric GLU_SMOOTH in
  let quadric := gluQuadricTexture quadric true in
  mret (mk name radius distance orbit_speed rotation_speed texture_id color
          orbit_angle rotation_angle quadric).

(** One angle of [Planet.update]: [angle += speed * delta_time], then
    [if angle >= 360: angle -= 360]. *)
Definition advance (angle speed delta_time : R) : R :=
  let angle := angle + speed * delta_time in
  if Rle_dec 360 angle then angle - 360 else angle.

Definition update (p : t) (delta_time : R) : t :=
  mk (name p) (radius p) (distance p) (orbit_speed p) (rotation_speed p)
     (texture_id p) (color p)
     (advance (orbit_angle p) (orbit_speed p) delta_time)
     (advance (rotation_angle p) (rotation_speed p) delta_time)
     (quadric p).

(** [n] calls of [update] with the same time step. *)
Fixpoint update_n (n : nat) (p : t) (delta_time : R) : t :=
  match n with
  | O => p
  | S n' => update_n n' (update p delta_time) delta_time
  end.

Definition get_position (p : t) : R * R * R :=
  let angle_rad := orbit_angle p * PI / 180.0 in
  let x := distance p * cos angle_rad in
  let z := distance p * sin angle_rad in
  let y := 0.0 in
  (x, y, z).

Definition draw (p : t) : list GLCommand :=
  let '(px, py, pz) := get_position p in
  [glPushMatrix; glTranslatef px py pz; glRotatef (rotation_angle p) 0.0 1.0 0.0]
  ++ (if Z_ge_dec (texture_id p) 0
      then [glEnable GL_TEXTURE_2D; glBindTexture GL_TEXTURE_2D (texture_id p)]
      else [glDisable GL_TEXTURE_2D;
            glColor3f (fst (fst (color p))) (snd (fst (color p))) (snd (color p))])
  ++ [gluSphere (quadric p) (radius p) 32 32; glDisable GL_TEXTURE_2D; glPopMatrix].

(** The vertices of the orbit circle: [for i in range(segments)]. *)
Definition orbit_vertex (p : t) (segments : nat) (i : nat) : GLCommand :=
  let angle := (INR i / INR segments) * 2 * PI in
  let x := distance p * cos angle in
  let z := distance p * sin angle in
  glVertex3f x 0.0 z.

Definition draw_orbit_line (p : t) : list GLCommand :=
  let segments := 128%nat in
  [glPushMatrix; glDisable GL_LIGHTING; glColor4f 0.3 0.3 0.5 0.3; glBegin GL_LINE_LOOP]
  ++ map (orbit_vertex p segments) (seq 0 segments)
  ++ [glEnd; glEnable GL_LIGHTING; glPopMatrix].

End Planet.

(** ** numpy vectors and the [math] functions the camera uses *)

Record vec3 : Type := mkvec3 { vx : R; vy : R; vz : R }.

Definition vadd (a b : vec3) : vec3 := mkvec3 (vx a + vx b) (vy a + vy b) (vz a + vz b).
Definition vsub (a b : vec3) : vec3 := mkvec3 (vx a - vx b) (vy a - vy b) (vz a - vz b).
Definition vscale (a : vec3) (k : R) : vec3 := mkvec3 (vx a * k) (vy a * k) (vz a * k).

(** [np.linalg.norm] *)
Definition norm (a : vec3) : R := sqrt (vx a * vx a + vy a * vy a + vz a * vz a).

(** [np.cross] *)
Definition cross (a b : vec3) : vec3 :=
  mkvec3 (vy a * vz b - vz a * vy b) (vz a * vx b - vx a * vz b) (vx a * vy b - vy a * vx b).

(** A division has no real value when the divisor is zero (numpy then warns
    and yields [nan] or [inf]): that case is the [None] branch. *)
Definition div (a b : R) : option R :=
  if Req_dec_T b 0 then None else Some (a / b).

Definition vdiv (a : vec3) (k : R) : option vec3 :=
  if Req_dec_T k 0 then None else Some (mkvec3 (vx a / k) (vy a / k) (vz a / k)).

(** [math.atan2(y, x)], by quadrant. *)
Definition atan2 (y x : R) : R :=
  if Rlt_dec 0 x then atan (y / x)
  else if Rlt_dec x 0 then
    (if Rle_dec 0 y then atan (y / x) + PI else atan (y / x) - PI)
  else if Rlt_dec 0 y then PI / 2
  else if Rlt_dec y 0 then - (PI / 2)
  else 0.

(** [math.asin] raises [ValueError] outside [[-1, 1]]. *)
Definition math_asin (x : R) : option R :=
  if Rle_dec (-1) x then (if Rle_dec x 1 then Some (asin x) else None) else None.

(** ** camera.py *)

Module Camera.

Record t : Type := mk {
  position : vec3;
  target : vec3;
  up : vec3;
  move_speed : R;
  rotation_speed : R;
  zoom_speed : R;
  distance : R;
  theta : R;
  phi : R
}.

Definition with_position (c : t) (p : vec3) : t :=
  mk p (target c) (up c) (move_speed c) (rotation_speed c) (zoom_speed c)
     (distance c) (theta c) (phi c).

Definition with_target (c : t) (tg : vec3) : t :=
  mk (position c) tg (up c) (move_speed c) (rotation_speed c) (zoom_speed c)
     (distance c) (theta c) (phi c).

Definition with_distance (c : t) (d : R) : t :=
  mk (position c) (target c) (up c) (move_speed c) (rotation_speed c) (zoom_speed c)
     d (theta c) (phi c).

Definition with_theta (c : t) (th : R) : t :=
  mk (position c) (target c) (up c) (move_speed c) (rotation_speed c) (zoom_speed c)
     (distance c) th (phi c).

Definition with_phi (c : t) (ph : R) : t :=
  mk (position c) (target c) (up c) (move_speed c) (rotation_speed c) (zoom_speed c)
     (distance c) (theta c) ph.

(** The offset of the eye from the target that belongs to the spherical
    coordinates, as [_update_position_from_spherical] computes it. *)
Definition spherical_offset (distance theta phi : R) : vec3 :=
  let theta_rad := theta * PI / 180.0 in
  let phi_rad := phi * PI / 180.0 in
  let x := distance * cos phi_rad * sin theta_rad in
  let y := distance * sin phi_rad in
  let z := distance * cos phi_rad * cos theta_rad in
  mkvec3 x y z.

Definition _update_position_from_spherical (c : t) : t :=
  with_position c (vadd (target c) (spherical_offset (distance c) (theta c) (phi c))).

Definition _recalculate_spherical (c : t) : option t :=
  let diff := vsub (position c) (target c) in
  let c := with_distance c (norm diff) in
  let c := with_theta c (atan2 (vx diff) (vz diff) * 180 / PI) in
  q ← div (vy diff) (distance c);
  a ← math_asin q;
  Some (with_phi c (a * 180 / PI)).

Definition __init__ : option t :=
  let position := mkvec3 30.0 20.0 30.0 in
  let target := mkvec3 0.0 0.0 0.0 in
  let up := mkvec3 0.0 1.0 0.0 in
  let move_speed := 0.5 in
  let rotation_speed := 2.0 in
  let zoom_speed := 1.0 in
  let distance := norm (vsub position target) in
  let theta := atan2 (vx position) (vz position) * 180 / PI in
  q ← div (vy position) distance;
  a ← math_asin q;
  let phi := a * 180 / PI in
  Some (mk position target up move_speed rotation_speed zoom_speed distance theta phi).

Definition apply_view_matrix (c : t) : list GLCommand :=
  [gluLookAt (vx (position c)) (vy (position c)) (vz (position c))
             (vx (target c)) (vy (target c)) (vz (target c))
             (vx (up c)) (vy (up c)) (vz (up c))].

Definition rotate_horizontal (c : t) (delta : R) : t :=
  let c := with_theta c (theta c + delta * rotation_speed c) in
  _update_position_from_spherical c.

Definition rotate_vertical (c : t) (delta : R) : t :=
  let new_phi := phi c + delta * rotation_speed c in
  let c := if Rlt_dec (-89.0) new_phi
           then (if Rlt_dec new_phi 89.0 then with_phi c new_phi else c)
           else c in
  _update_position_from_spherical c.

Definition move_forward (c : t) : option t :=
  let direction := vsub (target c) (position c) in
  direction ← vdiv direction (norm direction);
  let c := with_position c (vadd (position c) (vscale direction (move_speed c))) in
  Some (with_target c (vadd (target c) (vscale direction (move_speed c)))).

Definition move_backward (c : t) : option t :=
  let direction := vsub (target c) (position c) in
  direction ← vdiv direction (norm direction);
  let c := with_position c (vsub (position c) (vscale direction (move_speed c))) in
  Some (with_target c (vsub (target c) (vscale direction (move_speed c)))).

Definition move_left (c : t) : option t :=
  let direction := vsub (target c) (position c) in
  let right := cross direction (up c) in
  right ← vdiv right (norm right);
  let c := with_position c (vsub (position c) (vscale right (move_speed c))) in
  Some (with_target c (vsub (target c) (vscale right (move_speed c)))).

Definition move_right (c : t) : option t :=
  let direction := vsub (target c) (position c) in
  let right := cross direction (up c) in
  right ← vdiv right (norm right);
  let c := with_position c (vadd (position c) (vscale right (move_speed c))) in
  Some (with_target c (vadd (target c) (vscale right (move_speed c)))).

Definition move_up (c : t) : t :=
  let c := with_position c (vadd (position c) (vscale (up c) (move_speed c))) in
  with_target c (vadd (target c) (vscale (up c) (move_speed c))).

Definition move_down (c : t) : t :=
  let c := with_position c (vsub (position c) (vscale (up c) (move_speed c))) in
  with_target c (vsub (target c) (vscale (up c) (move_speed c))).

Definition zoom_in (c : t) : t :=
  let c := with_distance c (distance c - zoom_speed c) in
  let c := if Rlt_dec (distance c) 10.0 then with_distance c 10.0 else c in
  _update_position_from_spherical c.

Definition zoom_out (c : t) : t :=
  let c := with_distance c (distance c + zoom_speed c) in
  let c := if Rlt_dec 500.0 (distance c) then with_distance c 500.0 else c in
  _update_position_from_spherical c.

Definition reset_view (c : t) : option t :=
  let c := with_position c (mkvec3 30.0 20.0 30.0) in
  let c := with_target c (mkvec3 0.0 0.0 0.0) in
  _recalculate_spherical c.

(** The public mutations, and a sequence of calls on one camera. *)
Inductive call : Type :=
| RotateHorizontal (delta : R)
| RotateVertical (delta : R)
| MoveForward | MoveBackward | MoveLeft | MoveRight | MoveUp | MoveDown
| ZoomIn | ZoomOut
| ResetView.

Definition step (c : t) (op : call) : option t :=
  match op with
  | RotateHorizontal delta => Some (rotate_horizontal c delta)
  | RotateVertical delta => Some (rotate_vertical c delta)
  | MoveForward => move_forward c
  | MoveBackward => move_backward c
  | MoveLeft => move_left c
  | MoveRight => move_right c
  | MoveUp => Some (move_up c)
  | MoveDown => Some (move_down c)
  | ZoomIn => Some (zoom_in c)
  | ZoomOut => Some (zoom_out c)
  | ResetView => reset_view c
  end.

Fixpoint run (c : t) (ops : list call) : option t :=
  match ops with
  | [] => Some c
  | op :: ops' => c' ← step c op; run c' ops'
  end.

(** The camera after [ops], from construction on. *)
Definition session (ops : list call) : option t :=
  c ← __init__; run c ops.

End Camera.

(** ** renderer.py *)

(** PIL and the OpenGL context are outside the repository: the state they
    keep (files, texture objects, the console) is [World], and each call the
    renderer makes is a parameter that may return or raise.  [print] does not
    raise. *)
Class Externals : Type := {
  World : Type;
  Image : Type;
  Image_open : string -> M World Image;
  Image_convert : Image -> string -> M World Image;
  Image_tobytes : Image -> M World (list Z);
  Image_width : Image -> Z;
  Image_height : Image -> Z;
  glGenTextures : Z -> M World Z;
  gl_call : GLCommand -> M World unit;
  print : string -> World -> World
}.

Module Renderer.

Record t : Type := mk {
  width : Z;
  height : Z;
  textures : gmap string Z
}.

Section WithExternals.
Context `{Externals}.

(** The renderer object together with the world it acts on. *)
Definition state : Type := t * World.

Definition external {A} (m : M World A) : M state A :=
  fun st => let (r, w) := m (snd st) in (r, (fst st, w)).

Definition say (msg : string) : M state unit :=
  fun st => (Returned tt, (fst st, print msg (snd st))).

(** [self.textures[texture_name] = texture_id] *)
Definition store_texture (texture_name : string) (texture_id : Z) : M state unit :=
  fun st => (Returned tt,
             (mk (width (fst st)) (height (fst st))
                 (<[texture_name := texture_id]> (textures (fst st))),
              snd st)).

(** The body of the [try] block of [load_texture]. *)
Definition load_from_file (texture_name image_path : string) : M state Z :=
  image ← external (Image_open image_path);
  image ← external (Image_convert image "RGB");
  image_data ← external (Image_tobytes image);
  texture_id ← external (glGenTextures 1);
  _ ← external (gl_call (glBindTexture GL_TEXTURE_2D texture_id));
  _ ← external (gl_call (glTexParameter GL_TEXTURE_2D GL_TEXTURE_WRAP_S GL_REPEAT));
  _ ← external (gl_call (glTexParameter GL_TEXTURE_2D GL_TEXTURE_WRAP_T GL_REPEAT));
  _ ← external (gl_call (glTexParameter GL_TEXTURE_2D GL_TEXTURE_MIN_FILTER GL_LINEAR));
  _ ← external (gl_call (glTexParameter GL_TEXTURE_2D GL_TEXTURE_MAG_FILTER GL_LINEAR));
  _ ← external (gl_call (glTexImage2D GL_TEXTURE_2D 0 GL_RGB
                           (Image_width image) (Image_height image)
                           0 GL_RGB GL_UNSIGNED_BYTE image_data));
  _ ← external (gl_call (glGenerateMipmap GL_TEXTURE_2D));
  _ ← store_texture texture_name texture_id;
  _ ← say ("Loaded texture: " +:+ texture_name);
  mret texture_id.

(** The [except Exception as e] block. *)
Definition load_failed (texture_name : string) (e : string) : M state Z :=
  _ ← say ("Error loading texture " +:+ texture_name +:+ ": " +:+ e);
  mret (-1)%Z.

Definition load_texture (texture_name image_path : string) : M state Z :=
  fun st =>
    match textures (fst st) !! texture_name with
    | Some texture_id => (Returned texture_id, st)
    | None => try_except (load_from_file texture_name image_path)
                         (load_failed texture_name) st
    end.

Definition get_texture (self : t) (texture_name : string) : Z :=
  default (-1)%Z (textures self !! texture_name).

(** A sequence of [load_texture] calls, each with its name and path; the
    handles returned are dropped. *)
Fixpoint load_textures (calls : list (string * string)) (st : state) : state :=
  match calls with
  | [] => st
  | (texture_name, image_path) :: rest =>
      load_textures rest (snd (load_texture texture_name image_path st))
  end.

End WithExternals.

End Renderer.

(** ** main.py *)

Module Simulator.

(** [(name, radius, distance, orbit_speed, rotation_speed)] *)
Definition PLANETS_DATA : list (string * R * R * R * R) :=
  [ ("Mercury", 0.38, 8.0, 4.0, 3.0);
    ("Venus", 0.95, 12.0, 1.5, -1.0);
    ("Earth", 1.0, 16.0, 1.0, 2.0);
    ("Mars", 0.53, 21.0, 0.8, 1.9);
    ("Jupiter", 2.5, 30.0, 0.3, 2.4);
    ("Saturn", 2.0, 40.0, 0.15, 2.3) ].

Record t : Type := mk {
  running : bool;
  paused : bool;
  show_orbits : bool;
  camera : Camera.t;
  planets : list Planet.t;
  frame_count : Z;
  stdout : list string
}.

Definition with_running (s : t) (b : bool) : t :=
  mk b (paused s) (show_orbits s) (camera s) (planets s) (frame_count s) (stdout s).
Definition with_paused (s : t) (b : bool) : t :=
  mk (running s) b (show_orbits s) (camera s) (planets s) (frame_count s) (stdout s).
Definition with_show_orbits (s : t) (b : bool) : t :=
  mk (running s) (paused s) b (camera s) (planets s) (frame_count s) (stdout s).
Definition with_camera (s : t) (c : Camera.t) : t :=
  mk (running s) (paused s) (show_orbits s) c (planets s) (frame_count s) (stdout s).
Definition with_planets (s : t) (ps : list Planet.t) : t :=
  mk (running s) (paused s) (show_orbits s) (camera s) ps (frame_count s) (stdout s).
Definition printed (s : t) (msg : string) : t :=
  mk (running s) (paused s) (show_orbits s) (camera s) (planets s) (frame_count s)
     (stdout s ++ [msg]).

(** The stars of [_render_starfield]: [for _ in range(num_stars)]. *)
Fixpoint star_vertices `{NumpyRandom} (num_stars : nat) (star_distance : R)
  : M RandomState (list GLCommand) :=
  match num_stars with
  | O => mret []
  | S n =>
      theta ← np_random_uniform 0 (2 * PI);
      phi ← np_random_uniform 0 PI;
      let x := star_distance * sin phi * cos theta in
      let y := star_distance * sin phi * sin theta in
      let z := star_distance * cos phi in
      rest ← star_vertices n star_distance;
      mret (glVertex3f x y z :: rest)
  end.

(** [np.random.seed(k)] replaces the global generator state. *)
Definition np_random_seed `{NumpyRandom} (k : Z) : M RandomState unit :=
  fun _ => (Returned tt, seed k).

Definition _render_starfield `{NumpyRandom} (self : t) : M RandomState (list GLCommand) :=
  _ ← np_random_seed 42;
  let num_stars := 500%nat in
  let star_distance := 300.0 in
  stars ← star_vertices num_stars star_distance;
  mret ([glPushMatrix; glDisable GL_LIGHTING; glPointSize 1.5; glColor3f 0.8 0.8 1.0;
         glBegin GL_POINTS]
        ++ stars
        ++ [glEnd; glPointSize 1.0; glEnable GL_LIGHTING; glPopMatrix]).

Definition _update_simulation (self : t) : t :=
  if negb (paused self)
  then with_planets self (map (fun planet => Planet.update planet 1.0) (planets self))
  else self.

(** What pygame delivers in one frame. *)
Inductive Key : Type := K_ESCAPE | K_r | K_p | K_o | K_other.

Inductive Event : Type :=
| QUIT
| KEYDOWN (key : Key)
| MOUSEBUTTONDOWN (button : Z)
| OTHER.

Record Input : Type := mkInput {
  K_w : bool; K_s : bool; K_a : bool; K_d : bool; K_q : bool; K_e : bool;
  K_EQUALS : bool; K_PLUS : bool; K_MINUS : bool;
  mouse_right : bool;
  mouse_rel : Z * Z;
  events : list Event
}.

Definition when (b : bool) (f : Camera.t -> Camera.t) (c : Camera.t) : Camera.t :=
  if b then f c else c.

(** The held keys and the mouse drag of [_handle_input]. *)
Definition handle_held (inp : Input) (c : Camera.t) : Camera.t :=
  let c := when (K_w inp) (fun c => Camera.rotate_horizontal c 1) c in
  let c := when (K_s inp) (fun c => Camera.rotate_horizontal c (-1)) c in
  let c := when (K_a inp) (fun c => Camera.rotate_vertical c 1) c in
  let c := when (K_d inp) (fun c => Camera.rotate_vertical c (-1)) c in
  let c := when (K_q inp) Camera.move_up c in
  let c := when (K_e inp) Camera.move_down c in
  let c := when (K_EQUALS inp || K_PLUS inp) Camera.zoom_in c in
  let c := when (K_MINUS inp) Camera.zoom_out c in
  if mouse_right inp
  then let c := Camera.rotate_horizontal c (IZR (fst (mouse_rel inp)) * 0.05) in
       Camera.rotate_vertical c (- IZR (snd (mouse_rel inp)) * 0.05)
  else c.

(** One round of [for event in pygame.event.get()]. *)
Definition handle_event (self : t) (event : Event) : option t :=
  match event with
  | QUIT => Some (with_running self false)
  | KEYDOWN K_ESCAPE => Some (with_running self false)
  | KEYDOWN K_r => c ← Camera.reset_view (camera self); Some (with_camera self c)
  | KEYDOWN K_p =>
      let self := with_paused self (negb (paused self)) in
      let status := if paused self then "PAUSED" else "RUNNING" in
      Some (printed self ("Simulation " +:+ status))
  | KEYDOWN K_o =>
      let self := with_show_orbits self (negb (show_orbits self)) in
      let status := if show_orbits self then "ON" else "OFF" in
      Some (printed self ("Orbits: " +:+ status))
  | KEYDOWN K_other => Some self
  | MOUSEBUTTONDOWN button =>
      if Z.eq_dec button 4%Z then Some (with_camera self (Camera.zoom_in (camera self)))
      else if Z.eq_dec button 5%Z then Some (with_camera self (Camera.zoom_out (camera self)))
      else Some self
  | OTHER => Some self
  end.

Fixpoint handle_events (self : t) (evs : list Event) : option t :=
  match evs with
  | [] => Some self
  | event :: rest => self ← handle_event self event; handle_events self rest
  end.

Definition _handle_input (self : t) (inp : Input) : option t :=
  let self := with_camera self (handle_held inp (camera self)) in
  handle_events self (events inp).

(** The state changes of one round of the loop of [run]: input, then the
    simulation step. *)
Definition frame (self : t) (inp : Input) : option t :=
  self ← _handle_input self inp;
  Some (_update_simulation self).

End Simulator.

(** ** renderer.py and main.py: the rest of a frame *)


(** The OpenGL names the frame set-up uses besides those of the drawing
    stream. *)
Inductive GLname : Type :=
| GL_COLOR_BUFFER_BIT | GL_DEPTH_BUFFER_BIT
| GL_MODELVIEW | GL_PROJECTION
| GL_FRONT_AND_BACK | GL_EMISSION | GL_AMBIENT | GL_DIFFUSE | GL_SPECULAR | GL_SHININESS.

(** A call of a frame: a command of the drawing stream, or one of the
    set-up calls of the renderer. *)
Inductive GLCall : Type :=
| draw_call (c : GLCommand)
| glClear (mask : list GLname)
| glMatrixMode (mode : GLname)
| glLoadIdentity
| glMaterial (face pname : GLname) (params : list R).

Module OpenGLRenderer.

Definition setup_material (shininess : R) : list GLCall :=
  let ambient := [0.2; 0.2; 0.2; 1.0] in
  let diffuse := [0.8; 0.8; 0.8; 1.0] in
  let specular := [1.0; 1.0; 1.0; 1.0] in
  [glMaterial GL_FRONT_AND_BACK GL_AMBIENT ambient;
   glMaterial GL_FRONT_AND_BACK GL_DIFFUSE diffuse;
   glMaterial GL_FRONT_AND_BACK GL_SPECULAR specular;
   glMaterial GL_FRONT_AND_BACK GL_SHININESS [shininess]].

Definition clear_screen : list GLCall :=
  [glClear [GL_COLOR_BUFFER_BIT; GL_DEPTH_BUFFER_BIT]].

Definition setup_modelview : list GLCall :=
  [glMatrixMode GL_MODELVIEW; glLoadIdentity].

End OpenGLRenderer.

Module SolarSystemSimulator.

Definition SUN_RADIUS : R := 2.0.
Definition SUN_COLOR : R * R * R := (1.0, 1.0, 0.3).

Definition texture_names : list string :=
  ["mercury"; "venus"; "earth"; "mars"; "jupiter"; "saturn"].


Section Startup.
Context `{Externals} `{NumpyRandom}.







End Startup.

Definition _render_sun : list GLCall :=
  let emission := [1.0; 1.0; 0.5; 1.0] in
  let quadric := Planet.gluQuadricNormals Planet.gluNewQuadric GLU_SMOOTH in
  let emission_reset := [0.0; 0.0; 0.0; 1.0] in
  [draw_call glPushMatrix;
   glMaterial GL_FRONT_AND_BACK GL_EMISSION emission;
   draw_call (glColor3f (fst (fst SUN_COLOR)) (snd (fst SUN_COLOR)) (snd SUN_COLOR));
   draw_call (gluSphere quadric SUN_RADIUS 32 32);
   glMaterial GL_FRONT_AND_BACK GL_EMISSION emission_reset;
   draw_call glPopMatrix].

Definition _render_scene `{NumpyRandom} (self : Simulator.t) : M RandomState (list GLCall) :=
  stars ← Simulator._render_starfield self;
  mret (OpenGLRenderer.clear_screen
        ++ OpenGLRenderer.setup_modelview
        ++ map draw_call (Camera.apply_view_matrix (Simulator.camera self))
        ++ map draw_call stars
        ++ OpenGLRenderer.setup_material 32.0
        ++ _render_sun
        ++ flat_map (fun planet => map draw_call (Planet.draw planet)) (Simulator.planets self)
        ++ (if Simulator.show_orbits self
            then flat_map (fun planet => map draw_call (Planet.draw_orbit_line planet))
                          (Simulator.planets self)
            else [])).

(** [_display_stats]; [fps] is the text of [self.clock.get_fps()] to one
    decimal, as the frame clock of pygame gives it. *)
Definition _display_stats (self : Simulator.t) (fps : string) : Simulator.t :=
  let self := Simulator.mk (Simulator.running self) (Simulator.paused self)
                (Simulator.show_orbits self) (Simulator.camera self) (Simulator.planets self)
                (Simulator.frame_count self + 1)%Z (Simulator.stdout self) in
  if Z.eq_dec (Simulator.frame_count self mod 10)%Z 0%Z then
    if Z.eq_dec (Simulator.frame_count self mod 60)%Z 0%Z then
      let status := if Simulator.paused self then "PAUSED" else "RUNNING" in
      Simulator.printed self ("FPS: " +:+ fps +:+ " | Status: " +:+ status)
    else self
  else self.

(** What one round of the loop is given from outside. *)
Record Tick : Type := mkTick {
  input : Simulator.Input;
  fps : string
}.

(** The loop of [run] over the rounds that are given: a round is taken only
    while [running] holds; each round handles the input, steps the
    simulation, renders and counts the frame.  The result is the simulator
    and the frames rendered, oldest first. *)
Fixpoint run_loop `{NumpyRandom} (self : Simulator.t) (ticks : list Tick)
    (frames : list (list GLCall)) (g : RandomState)
  : option (Simulator.t * list (list GLCall) * RandomState) :=
  match ticks with
  | [] => Some (self, frames, g)
  | tick :: rest =>
      if Simulator.running self then
        self ← Simulator._handle_input self (input tick);
        let self := Simulator._update_simulation self in
        match _render_scene self g with
        | (Returned scene, g) =>
            let self := _display_stats self (fps tick) in
            run_loop self rest (frames ++ [scene]) g
        | (Raised _, _) => None
        end
      else Some (self, frames, g)
  end.

End SolarSystemSimulator.

(** ** What a stream of calls does to the OpenGL state

    The part of the OpenGL state the frame depends on: how many matrices the
    stream has pushed and not popped, whether a [glBegin] is open, whether
    lighting and texturing are enabled, the texture bound, and what has been
    drawn so far (each sphere with the lighting and the texture in force,
    each primitive with the lighting in force). *)

Inductive Drawn : Type :=
| Sphere (radius : R) (lit : bool) (texture : option Z)
| Primitive (mode : GLenum) (lit : bool).

Record GLState : Type := mkGLState {
  matrix_depth : nat;
  in_primitive : bool;
  lighting : bool;
  texturing : bool;
  bound_texture : Z;
  drawn : list Drawn
}.

Definition set_capability (s : GLState) (cap : GLenum) (on : bool) : GLState :=
  match cap with
  | GL_LIGHTING =>
      mkGLState (matrix_depth s) (in_primitive s) on (texturing s) (bound_texture s) (drawn s)
  | GL_TEXTURE_2D =>
      mkGLState (matrix_depth s) (in_primitive s) (lighting s) on (bound_texture s) (drawn s)
  | _ => s
  end.

(** One call.  [None] is an OpenGL error or undefined behaviour: popping a
    matrix the stream did not push, [glEnd] without [glBegin], a vertex
    outside a primitive, and anything but a vertex, a colour or a material
    between [glBegin] and [glEnd]. *)
Definition gl_exec (s : GLState) (c : GLCall) : option GLState :=
  match c with
  | draw_call (glVertex3f _ _ _) => if in_primitive s then Some s else None
  | draw_call (glColor3f _ _ _) | draw_call (glColor4f _ _ _ _) | glMaterial _ _ _ => Some s
  | draw_call glEnd =>
      if in_primitive s
      then Some (mkGLState (matrix_depth s) false (lighting s) (texturing s)
                   (bound_texture s) (drawn s))
      else None
  | _ =>
      if in_primitive s then None else
      match c with
      | draw_call glPushMatrix =>
          Some (mkGLState (S (matrix_depth s)) false (lighting s) (texturing s)
                  (bound_texture s) (drawn s))
      | draw_call glPopMatrix =>
          match matrix_depth s with
          | O => None
          | S d => Some (mkGLState d false (lighting s) (texturing s)
                           (bound_texture s) (drawn s))
          end
      | draw_call (glEnable cap) => Some (set_capability s cap true)
      | draw_call (glDisable cap) => Some (set_capability s cap false)
      | draw_call (glBindTexture _ texture) =>
          Some (mkGLState (matrix_depth s) false (lighting s) (texturing s) texture (drawn s))
      | draw_call (glBegin mode) =>
          Some (mkGLState (matrix_depth s) true (lighting s) (texturing s) (bound_texture s)
                  (drawn s ++ [Primitive mode (lighting s)]))
      | draw_call (gluSphere _ radius _ _) =>
          Some (mkGLState (matrix_depth s) false (lighting s) (texturing s) (bound_texture s)
                  (drawn s ++ [Sphere radius (lighting s)
                                 (if texturing s then Some (bound_texture s) else None)]))
      | _ => Some s
      end
  end.

Fixpoint gl_run (s : GLState) (calls : list GLCall) : option GLState :=
  match calls with
  | [] => Some s
  | c :: rest => s' ← gl_exec s c; gl_run s' rest
  end.

(** ** texture_generator.py *)

Module TextureGenerator.

(** [int(x)] on a float: the integer towards zero. *)
Definition int (x : R) : Z := if Rle_dec 0 x then Zfloor x else Zceil x.

(** [x ** y] on floats, for a base that is not negative and a positive
    exponent. *)
Definition power (x y : R) : R := if Req_dec_T x 0 then 0 else Rpower x y.

Definition pixel : Type := Z * Z * Z.

(** An image, as the list of its rows, top row first. *)
Definition image : Type := list (list pixel).

(** [range(size)] *)
Definition range (size : Z) : list Z := map Z.of_nat (seq 0 (Z.to_nat size)).

(** [for y in range(size): for x in range(size): pixels[x, y] = f x y] *)
Definition fill (size : Z) (f : Z -> Z -> option pixel) : option image :=
  mapM (fun y => mapM (fun x => f x y) (range size)) (range size).

(** [os.path.join("textures", file)], with the separator of POSIX. *)
Definition texture_path (file : string) : string := "textures" +:+ "/" +:+ file.

Definition sun_pixel (size x y : Z) : option pixel :=
  let center := (size / 2)%Z in
  let max_dist := center in
  let dx := (x - center)%Z in
  let dy := (y - center)%Z in
  let dist := sqrt (IZR (dx * dx + dy * dy)) in
  ratio ← div dist (IZR max_dist);
  let intensity := Rmax 0 (1.0 - power ratio 0.8) in
  let r := int (255 * intensity) in
  let g := int (200 * intensity * 0.8) in
  let b := int (50 * intensity * 0.3) in
  Some (r, g, b).

Definition generate_sun_texture (size : Z) : option (string * image) :=
  img ← fill size (sun_pixel size);
  Some (texture_path "sun.png", img).

Definition earth_pixel (x y : Z) : pixel :=
  let noise := sin (IZR x * 0.02) * cos (IZR y * 0.02) in
  let noise := noise + sin (IZR x * 0.001) * 0.5 in
  if Rlt_dec 0.3 noise
  then (int (100 + 80 * (noise - 0.3)), int (150 + 60 * (noise - 0.3)), 50%Z)
  else (20%Z, (100 + int (80 * (0.3 - noise)))%Z, int (180 + 60 * (0.3 - noise))).

Definition generate_earth_texture (size : Z) : option (string * image) :=
  img ← fill size (fun x y => Some (earth_pixel x y));
  Some (texture_path "earth.png", img).

Definition mars_pixel (x y : Z) : pixel :=
  let noise := (sin (IZR x * 0.015) * cos (IZR y * 0.015)) * 0.5 + 0.5 in
  (int (180 + 50 * noise), int (100 + 30 * noise), int (60 + 20 * noise)).

Definition generate_mars_texture (size : Z) : option (string * image) :=
  img ← fill size (fun x y => Some (mars_pixel x y));
  Some (texture_path "mars.png", img).

Definition jupiter_pixel (size x y : Z) : option pixel :=
  q ← div (IZR y) (IZR size);
  let band_pos := q * 10 in
  let band_intensity := Rabs (sin (band_pos * PI * 2)) * 0.5 + 0.5 in
  let noise := sin (IZR x * 0.01) * 0.3 + 0.7 in
  let r := int (200 * band_intensity + 100 * (1 - band_intensity)) in
  let g := int (150 * band_intensity + 80 * (1 - band_intensity)) in
  let b := int (80 + 40 * noise) in
  Some (r, g, b).

Definition generate_jupiter_texture (size : Z) : option (string * image) :=
  img ← fill size (jupiter_pixel size);
  Some (texture_path "jupiter.png", img).

Definition saturn_pixel (size x y : Z) : option pixel :=
  q ← div (IZR y) (IZR size);
  let band_pos := q * 5 in
  let band_effect := Rabs (sin (band_pos * PI)) * 0.2 + 0.8 in
  let noise := (sin (IZR x * 0.01) + cos (IZR y * 0.01)) * 0.1 + 0.9 in
  let r := int (220 * noise * band_effect) in
  let g := int (210 * noise * band_effect) in
  let b := int (190 * noise * band_effect) in
  Some (r, g, b).

Definition generate_saturn_texture (size : Z) : option (string * image) :=
  img ← fill size (saturn_pixel size);
  Some (texture_path "saturn.png", img).

Definition mercury_pixel (x y : Z) : pixel :=
  let noise := sin (IZR x * 0.02) * cos (IZR y * 0.02) * 0.5 + 0.5 in
  let noise := noise + sin (IZR x * 0.005) * 0.2 in
  let grey := int (140 + 60 * noise) in
  (grey, grey, (grey - 20)%Z).

Definition generate_mercury_texture (size : Z) : option (string * image) :=
  img ← fill size (fun x y => Some (mercury_pixel x y));
  Some (texture_path "mercury.png", img).

Definition venus_pixel (x y : Z) : pixel :=
  let noise := (sin (IZR x * 0.01) + cos (IZR y * 0.01)) * 0.3 + 0.7 in
  (int (230 * noise), int (200 * noise), int (100 * noise * 0.7)).

Definition generate_venus_texture (size : Z) : option (string * image) :=
  img ← fill size (fun x y => Some (venus_pixel x y));
  Some (texture_path "venus.png", img).

(** The files [generate_all_textures] writes, in order, each at the default
    size of 256. *)
Definition generate_all_textures : option (list (string * image)) :=
  sun ← generate_sun_texture 256;
  mercury ← generate_mercury_texture 256;
  venus ← generate_venus_texture 256;
  earth ← generate_earth_texture 256;
  mars ← generate_mars_texture 256;
  jupiter ← generate_jupiter_texture 256;
  saturn ← generate_saturn_texture 256;
  Some [sun; mercury; venus; earth; mars; jupiter; saturn].

End TextureGenerator.

(** ** The vocabulary of the statements, and values to run the code on *)

(** A generator to run the definitions on: the state is a counter and the
    [n]-th draw is [1 / (n + 2)]. *)
Definition harmonic_random : NumpyRandom.
Proof.
  refine {| RandomState := nat;
            seed := fun z => Z.to_nat z;
            random_sample := fun n => (/ (INR n + 2), S n) |}.
  intros n; simpl. pose proof (pos_INR n) as Hn.
  assert (0 < / (INR n + 2)) by (apply Rinv_0_lt_compat; lra).
  split; [lra|].
  rewrite <- Rinv_1. apply Rinv_lt_contravar; lra.
Defined.

(** What every sequence of camera calls keeps true. *)
Definition camera_inv (c : Camera.t) : Prop :=
  Camera.position c
    = vadd (Camera.target c)
           (Camera.spherical_offset (Camera.distance c) (Camera.theta c) (Camera.phi c))
  /\ 10 <= Camera.distance c <= 500
  /\ -89 < Camera.phi c < 89
  /\ Camera.up c = mkvec3 0 1 0
  /\ Camera.move_speed c = 0.5
  /\ Camera.rotation_speed c = 2
  /\ Camera.zoom_speed c = 1.

(** The default eye [(30, 20, 30)] seen from the origin. *)
Definition default_distance : R := sqrt 2200.
Definition default_theta : R := PI / 4 * 180 / PI.
Definition default_phi : R := asin (20 / sqrt 2200) * 180 / PI.

Definition default_camera : Camera.t :=
  Camera.mk (mkvec3 30.0 20.0 30.0) (mkvec3 0.0 0.0 0.0) (mkvec3 0.0 1.0 0.0)
            0.5 2.0 1.0 default_distance default_theta default_phi.

(** The unit vector of a yaw [theta] and a pitch [phi], both in degrees. *)
Definition spherical_direction (theta phi : R) : vec3 :=
  mkvec3 (cos (phi * PI / 180) * sin (theta * PI / 180))
         (sin (phi * PI / 180))
         (cos (phi * PI / 180) * cos (theta * PI / 180)).

Definition sphere_quadric : Quadric :=
  Planet.gluQuadricTexture (Planet.gluQuadricNormals Planet.gluNewQuadric GLU_SMOOTH) true.

(** Venus as [PLANETS_DATA] configures it, at the start of its orbit and half
    a degree into its spin. *)
Definition venus : Planet.t :=
  Planet.mk "Venus" 0.95 12.0 1.5 (-1.0) 1 Planet.default_color 0 0.5 sphere_quadric.

Definition mercury : Planet.t :=
  Planet.mk "Mercury" 0.38 8.0 4.0 3.0 0 Planet.default_color 0 0 sphere_quadric.

Definition angles_in_range (p : Planet.t) : Prop :=
  0 <= Planet.orbit_angle p < 360 /\ 0 <= Planet.rotation_angle p < 360.

(** The [i]-th sample of a circle of radius [r] cut into 128 steps. *)
Definition orbit_point (r : R) (i : nat) : R * R * R :=
  (r * cos (2 * PI * INR i / 128), 0, r * sin (2 * PI * INR i / 128)).

(** A body whose orbit radius is zero. *)
Definition origin_body : Planet.t :=
  Planet.mk "Origin" 1.0 0.0 1.0 1.0 (-1) Planet.default_color 0 0 sphere_quadric.

(** A computation that stores under [name] the handle it returns, and leaves
    the renderer alone when it raises. *)
Definition stores_result `{Externals} (name : string) (m : M Renderer.state Z) : Prop :=
  forall st,
    match m st with
    | (Returned h, st') =>
        Renderer.textures (fst st') = <[name := h]> (Renderer.textures (fst st))
    | (Raised _, st') => fst st' = fst st
    end.

(** A world to run the renderer in: it records the calls made (newest
    first); the only image on disk is [textures/earth.png]; texture handles
    are numbered from 1. *)
Definition recorded_world : Externals := {|
  World := list string;
  Image := Z * Z;
  Image_open := fun path w =>
    if String.eqb path "textures/earth.png"
    then (Returned (256, 256)%Z, ("Image.open " +:+ path) :: w)
    else (Raised "FileNotFoundError", ("Image.open " +:+ path) :: w);
  Image_convert := fun image mode w => (Returned image, w);
  Image_tobytes := fun image w => (Returned [], w);
  Image_width := fst;
  Image_height := snd;
  glGenTextures := fun n w => (Returned 1%Z, "glGenTextures" :: w);
  gl_call := fun cmd w => (Returned tt, w);
  print := fun msg w => ("print " +:+ msg) :: w
|}.

Definition empty_renderer : Renderer.t := Renderer.mk 1400 900 ∅.

(** Mars as [_create_planets] builds it when its texture did not load. *)
Definition untextured_mars : Planet.t :=
  Planet.mk "Mars" 0.53 21.0 0.8 1.9 (-1) Planet.default_color 0 0 sphere_quadric.

Definition textured_earth : Planet.t :=
  Planet.mk "Earth" 1.0 16.0 1.0 2.0 1 Planet.default_color 0 0 sphere_quadric.

Definition two_planets : list Planet.t := [venus; mercury].

Definition pause_key_pressed : Simulator.Input :=
  Simulator.mkInput false false false false false false false false false false
    (0, 0)%Z [Simulator.KEYDOWN Simulator.K_p].


(** The texture a planet is drawn with: its handle, or none. *)
Definition texture_of (p : Planet.t) : option Z :=
  if Z_ge_dec (Planet.texture_id p) 0 then Some (Planet.texture_id p) else None.

Definition is_vertex (c : GLCommand) : Prop :=
  match c with
  | glVertex3f _ _ _ => True
  | _ => False
  end.

(** The OpenGL state at the start of the first frame. *)
Definition initial_gl_state : GLState := mkGLState 0 false true false 0 [].

(** The events that end the loop: closing the window, and the escape key. *)
Definition is_quit (e : Simulator.Event) : bool :=
  match e with
  | Simulator.QUIT | Simulator.KEYDOWN Simulator.K_ESCAPE => true
  | _ => false
  end.

(** A round in which nothing is pressed or moved. *)
Definition idle_tick : SolarSystemSimulator.Tick :=
  SolarSystemSimulator.mkTick
    (Simulator.mkInput false false false false false false false false false false
       (0, 0)%Z [])
    "60.0".

(** A round in which the window is closed. *)
Definition closing_tick : SolarSystemSimulator.Tick :=
  SolarSystemSimulator.mkTick
    (Simulator.mkInput false false false false false false false false false false
       (0, 0)%Z [Simulator.QUIT])
    "60.0".

(** A list of calls that is what [_render_scene] returns for some simulator. *)
Definition rendered_scene `{NumpyRandom} (scene : list GLCall) : Prop :=
  exists self g g', SolarSystemSimulator._render_scene self g = (Returned scene, g').

(** A colour whose three channels fit a byte. *)
Definition byte_pixel (p : TextureGenerator.pixel) : Prop :=
  (0 <= fst (fst p) <= 255)%Z /\ (0 <= snd (fst p) <= 255)%Z /\ (0 <= snd p <= 255)%Z.


(** A square image of the given size. *)
Definition square_image (size : Z) (img : TextureGenerator.image) : Prop :=
  length img = Z.to_nat size
  /\ Forall (fun row => length row = Z.to_nat size /\ Forall (fun _ => True) row) img.

Definition same_key (a b : Simulator.Key) : bool :=
  match a, b with
  | Simulator.K_ESCAPE, Simulator.K_ESCAPE
  | Simulator.K_r, Simulator.K_r
  | Simulator.K_p, Simulator.K_p
  | Simulator.K_o, Simulator.K_o
  | Simulator.K_other, Simulator.K_other => true
  | _, _ => false
  end.

(** How often a key goes down in a list of events. *)
Fixpoint presses (key : Simulator.Key) (evs : list Simulator.Event) : nat :=
  match evs with
  | [] => 0
  | Simulator.KEYDOWN k :: rest => (if same_key k key then 1 else 0) + presses key rest
  | _ :: rest => presses key rest
  end.

(** ** Theorems *)

(** *** Command streams *)

Lemma vertices_app (a b : list GLCommand) : vertices (a ++ b) = vertices a ++ vertices b.
Proof.
  induction a as [|c a IH]; simpl; [reflexivity|].
  destruct c; simpl; rewrite IH; reflexivity.
Qed.

Lemma primitives_app (a b : list GLCommand) :
  primitives (a ++ b) = primitives a ++ primitives b.
Proof.
  induction a as [|c a IH]; simpl; [reflexivity|].
  destruct c; simpl; rewrite IH; reflexivity.
Qed.

(** *** Camera: the state every sequence of calls keeps *)

Lemma vec3_ext (a b : vec3) :
  vx a = vx b -> vy a = vy b -> vz a = vz b -> a = b.
Proof. destruct a, b; simpl; intros; subst; reflexivity. Qed.

Lemma norm_of_squares (v : vec3) (r : R) :
  0 <= r -> vx v * vx v + vy v * vy v + vz v * vz v = r * r -> norm v = r.
Proof. intros Hr Hsq. unfold norm. rewrite Hsq. apply sqrt_square, Hr. Qed.

Lemma sin_cos_squares (x : R) : sin x * sin x + cos x * cos x = 1.
Proof. exact (sin2_cos2 x). Qed.

(** The offset has the length [distance]. *)
Lemma spherical_offset_squares (d th ph : R) :
  let o := Camera.spherical_offset d th ph in
  vx o * vx o + vy o * vy o + vz o * vz o = d * d.
Proof.
  unfold Camera.spherical_offset; simpl.
  set (t := th * PI / 180.0). set (p := ph * PI / 180.0).
  pose proof (sin_cos_squares t) as Ht. pose proof (sin_cos_squares p) as Hp.
  replace (d * cos p * sin t * (d * cos p * sin t) + d * sin p * (d * sin p)
           + d * cos p * cos t * (d * cos p * cos t))
    with (d * d * (cos p * cos p * (sin t * sin t + cos t * cos t) + sin p * sin p))
    by ring.
  rewrite Ht. replace (cos p * cos p * 1 + sin p * sin p) with 1 by lra. ring.
Qed.

(** Its horizontal part has the length [distance * cos phi]. *)
Lemma spherical_offset_horizontal (d th ph : R) :
  let o := Camera.spherical_offset d th ph in
  vz o * vz o + vx o * vx o
  = (d * cos (ph * PI / 180.0)) * (d * cos (ph * PI / 180.0)).
Proof.
  unfold Camera.spherical_offset; simpl.
  set (t := th * PI / 180.0). set (p := ph * PI / 180.0).
  pose proof (sin_cos_squares t) as Ht.
  replace (d * cos p * cos t * (d * cos p * cos t) + d * cos p * sin t * (d * cos p * sin t))
    with (d * cos p * (d * cos p) * (sin t * sin t + cos t * cos t)) by ring.
  rewrite Ht. ring.
Qed.

Lemma cos_pitch_pos (ph : R) : -89 < ph < 89 -> 0 < cos (ph * PI / 180.0).
Proof.
  intros Hph. pose proof PI_RGT_0 as Hpi.
  apply cos_gt_0; nra.
Qed.

(** The view direction of a camera that satisfies the invariant has the
    length [distance], so [move_forward] and [move_backward] divide by a
    number that is at least 10. *)
Lemma view_direction_norm (c : Camera.t) :
  camera_inv c ->
  norm (vsub (Camera.target c) (Camera.position c)) = Camera.distance c.
Proof.
  intros (Hpos & Hd & _). apply norm_of_squares; [lra|].
  rewrite Hpos.
  pose proof (spherical_offset_squares (Camera.distance c) (Camera.theta c) (Camera.phi c))
    as Hsq.
  simpl in *. rewrite <- Hsq. ring.
Qed.

(** The sideways direction has the length [distance * cos phi], which is
    positive because the pitch stays off the poles. *)
Lemma right_direction_norm (c : Camera.t) :
  camera_inv c ->
  norm (cross (vsub (Camera.target c) (Camera.position c)) (Camera.up c))
  = Camera.distance c * cos (Camera.phi c * PI / 180.0).
Proof.
  intros (Hpos & Hd & Hphi & Hup & _).
  pose proof (cos_pitch_pos _ Hphi) as Hcos.
  apply norm_of_squares; [nra|].
  rewrite Hpos, Hup.
  pose proof (spherical_offset_horizontal (Camera.distance c) (Camera.theta c) (Camera.phi c))
    as Hsq.
  simpl in *. rewrite <- Hsq. ring.
Qed.

Lemma vdiv_defined (v : vec3) (k : R) :
  k <> 0 -> vdiv v k = Some (mkvec3 (vx v / k) (vy v / k) (vz v / k)).
Proof. intros Hk. unfold vdiv. destruct (Req_dec_T k 0); [contradiction|reflexivity]. Qed.

(** Moving eye and target by the same vector keeps the invariant. *)
Lemma camera_inv_shift (c : Camera.t) (p' t' : vec3) :
  camera_inv c ->
  vsub p' t' = vsub (Camera.position c) (Camera.target c) ->
  camera_inv (Camera.with_target (Camera.with_position c p') t').
Proof.
  intros (Hpos & Hrest) Hshift. split; [|exact Hrest].
  simpl. rewrite Hpos in Hshift.
  injection Hshift as Hx Hy Hz. simpl in Hx, Hy, Hz.
  apply vec3_ext; simpl; lra.
Qed.

Lemma camera_inv_update (c : Camera.t) :
  10 <= Camera.distance c <= 500 -> -89 < Camera.phi c < 89 ->
  Camera.up c = mkvec3 0 1 0 -> Camera.move_speed c = 0.5 ->
  Camera.rotation_speed c = 2 -> Camera.zoom_speed c = 1 ->
  camera_inv (Camera._update_position_from_spherical c).
Proof. intros. repeat split; simpl; tauto || lra. Qed.

Lemma default_distance_bounds : 40 <= default_distance <= 50.
Proof.
  unfold default_distance. split.
  - rewrite <- (sqrt_square 40) by lra. apply sqrt_le_1; lra.
  - rewrite <- (sqrt_square 50) by lra. apply sqrt_le_1; lra.
Qed.

Lemma default_distance_square : default_distance * default_distance = 2200.
Proof. unfold default_distance. apply sqrt_sqrt. lra. Qed.

Lemma default_sine_bounds : 0 <= 20 / sqrt 2200 <= 1 / 2.
Proof.
  pose proof default_distance_bounds as Hd. unfold default_distance in Hd.
  split.
  - apply Rle_mult_inv_pos; lra.
  - apply Rmult_le_reg_r with (r := sqrt 2200); [lra|].
    unfold Rdiv. rewrite Rmult_assoc, Rinv_l by lra. lra.
Qed.

Lemma default_pitch_radians : 0 <= asin (20 / sqrt 2200) <= PI / 6.
Proof.
  pose proof default_sine_bounds as Hq. pose proof PI_RGT_0 as Hpi.
  pose proof (asin_bound (20 / sqrt 2200)) as Hb.
  assert (Hs : sin (asin (20 / sqrt 2200)) = 20 / sqrt 2200) by (apply sin_asin; lra).
  split.
  - apply sin_incr_0; try lra. rewrite sin_0, Hs. lra.
  - apply sin_incr_0; try lra. rewrite sin_PI6, Hs. lra.
Qed.

Lemma default_phi_bounds : 0 <= default_phi <= 30.
Proof.
  pose proof default_pitch_radians as Ha. pose proof PI_RGT_0 as Hpi.
  unfold default_phi. split.
  - apply Rle_mult_inv_pos; [nra|lra].
  - apply Rmult_le_reg_r with (r := PI); [lra|].
    unfold Rdiv. rewrite Rmult_assoc, Rinv_l by lra. lra.
Qed.

Lemma atan2_diagonal : atan2 30.0 30.0 = PI / 4.
Proof.
  unfold atan2. destruct (Rlt_dec 0 30.0) as [_|Hn]; [|exfalso; lra].
  replace (30.0 / 30.0) with 1 by lra. apply atan_1.
Qed.

Lemma default_norm (tg : vec3) :
  tg = mkvec3 0.0 0.0 0.0 -> norm (vsub (mkvec3 30.0 20.0 30.0) tg) = default_distance.
Proof.
  intros ->. unfold norm, default_distance; simpl. f_equal. lra.
Qed.

Lemma default_quotient :
  div 20.0 default_distance = Some (20 / sqrt 2200).
Proof.
  pose proof default_distance_bounds as Hd.
  unfold div. destruct (Req_dec_T default_distance 0) as [H0|_]; [lra|].
  unfold default_distance. f_equal. lra.
Qed.

Lemma default_asin : math_asin (20 / sqrt 2200) = Some (asin (20 / sqrt 2200)).
Proof.
  pose proof default_sine_bounds as Hq. unfold math_asin.
  destruct (Rle_dec (-1) (20 / sqrt 2200)) as [_|Hn]; [|lra].
  destruct (Rle_dec (20 / sqrt 2200) 1) as [_|Hn]; [reflexivity|lra].
Qed.

(** The spherical coordinates computed from the default eye give the default
    eye back: [d * cos phi * sin 45 = 30], [d * sin phi = 20]. *)
Lemma default_offset :
  Camera.spherical_offset default_distance default_theta default_phi
  = mkvec3 30 20 30.
Proof.
  pose proof PI_RGT_0 as Hpi.
  pose proof default_distance_bounds as Hd.
  pose proof default_distance_square as Hdd.
  pose proof default_sine_bounds as Hq.
  pose proof default_pitch_radians as Ha.
  set (a := asin (20 / sqrt 2200)) in *.
  assert (Hs : sin a = 20 / sqrt 2200) by (apply sin_asin; lra).
  assert (Hds : default_distance * sin a = 20).
  { rewrite Hs. unfold default_distance. field. fold default_distance. lra. }
  assert (Hc : 0 <= cos a) by (apply cos_ge_0; lra).
  pose proof (sin_cos_squares a) as Hsc.
  assert (Hr : 0 < sqrt 2) by (apply sqrt_lt_R0; lra).
  assert (Hrr : sqrt 2 * sqrt 2 = 2) by (apply sqrt_sqrt; lra).
  assert (Hw : default_distance * cos a = 30 * sqrt 2).
  { assert (Hsq : (default_distance * cos a) * (default_distance * cos a)
                  = (30 * sqrt 2) * (30 * sqrt 2)).
    { replace (default_distance * cos a * (default_distance * cos a))
        with (default_distance * default_distance * (sin a * sin a + cos a * cos a)
              - (default_distance * sin a) * (default_distance * sin a)) by ring.
      rewrite Hsc, Hdd, Hds.
      replace (30 * sqrt 2 * (30 * sqrt 2)) with (900 * (sqrt 2 * sqrt 2)) by ring.
      rewrite Hrr. lra. }
    apply Rsqr_inj; [nra|nra|exact Hsq]. }
  unfold Camera.spherical_offset.
  replace (default_theta * PI / 180.0) with (PI / 4)
    by (unfold default_theta; replace 180.0 with 180 by lra; field; lra).
  replace (default_phi * PI / 180.0) with a
    by (unfold default_phi; fold a; replace 180.0 with 180 by lra; field; lra).
  rewrite sin_PI4, cos_PI4, Hw, Hds.
  apply vec3_ext; simpl; try reflexivity; field; lra.
Qed.

Lemma recalculate_default (c : Camera.t) :
  Camera.position c = mkvec3 30.0 20.0 30.0 ->
  Camera.target c = mkvec3 0.0 0.0 0.0 ->
  Camera._recalculate_spherical c
  = Some (Camera.mk (Camera.position c) (Camera.target c) (Camera.up c)
            (Camera.move_speed c) (Camera.rotation_speed c) (Camera.zoom_speed c)
            default_distance default_theta default_phi).
Proof.
  intros Hp Ht. unfold Camera._recalculate_spherical.
  rewrite Hp, Ht. cbn [Camera.with_distance Camera.with_theta Camera.with_phi
    Camera.distance Camera.theta Camera.phi Camera.position Camera.target Camera.up
    Camera.move_speed Camera.rotation_speed Camera.zoom_speed].
  rewrite (default_norm (mkvec3 0.0 0.0 0.0) eq_refl).
  cbn [vsub vx vy vz].
  replace (20.0 - 0.0) with 20.0 by lra.
  replace (30.0 - 0.0) with 30.0 by lra.
  rewrite default_quotient. cbn [mbind option_bind].
  rewrite default_asin. cbn [mbind option_bind].
  rewrite atan2_diagonal.
  unfold Camera.with_phi, Camera.with_theta, Camera.with_distance.
  cbn [Camera.distance Camera.theta Camera.phi Camera.position Camera.target Camera.up
    Camera.move_speed Camera.rotation_speed Camera.zoom_speed].
  rewrite Hp, Ht. reflexivity.
Qed.

Lemma spherical_offset_direction (d th ph : R) :
  Camera.spherical_offset d th ph = vscale (spherical_direction th ph) d.
Proof.
  unfold Camera.spherical_offset, spherical_direction, vscale; simpl.
  replace 180.0 with 180 by lra. apply vec3_ext; simpl; ring.
Qed.

Lemma camera_init_default : Camera.__init__ = Some default_camera.
Proof.
  unfold Camera.__init__.
  rewrite (default_norm (mkvec3 0.0 0.0 0.0) eq_refl).
  cbn [vx vy vz].
  rewrite default_quotient. cbn [mbind option_bind].
  rewrite default_asin. cbn [mbind option_bind].
  rewrite atan2_diagonal. reflexivity.
Qed.

Lemma default_camera_inv (u : vec3) (ms rs zs : R) :
  u = mkvec3 0 1 0 -> ms = 0.5 -> rs = 2 -> zs = 1 ->
  camera_inv (Camera.mk (mkvec3 30.0 20.0 30.0) (mkvec3 0.0 0.0 0.0) u ms rs zs
                default_distance default_theta default_phi).
Proof.
  intros -> -> -> ->.
  pose proof default_distance_bounds. pose proof default_phi_bounds.
  unfold camera_inv; simpl. rewrite default_offset.
  repeat split; try lra.
  apply vec3_ext; simpl; lra.
Qed.

Lemma reset_view_inv (c : Camera.t) :
  camera_inv c -> exists c', Camera.reset_view c = Some c' /\ camera_inv c'.
Proof.
  intros (_ & _ & _ & Hup & Hms & Hrs & Hzs).
  unfold Camera.reset_view. rewrite recalculate_default by reflexivity.
  eexists; split; [reflexivity|]. simpl.
  apply default_camera_inv; assumption.
Qed.

(** X2. [reset_view] is idempotent: it returns a camera, and resetting that
    camera returns it again. *)
Theorem reset_view_idempotent (c : Camera.t) :
  exists c1, Camera.reset_view c = Some c1 /\ Camera.reset_view c1 = Some c1.
Proof.
  unfold Camera.reset_view. rewrite recalculate_default by reflexivity.
  eexists. split; [reflexivity|].
  rewrite recalculate_default by reflexivity. reflexivity.
Qed.

Lemma rotate_horizontal_inv (c : Camera.t) (delta : R) :
  camera_inv c -> camera_inv (Camera.rotate_horizontal c delta).
Proof.
  intros (_ & Hd & Hphi & Hup & Hms & Hrs & Hzs).
  unfold Camera.rotate_horizontal. apply camera_inv_update; assumption.
Qed.

Lemma rotate_vertical_inv (c : Camera.t) (delta : R) :
  camera_inv c -> camera_inv (Camera.rotate_vertical c delta).
Proof.
  intros (_ & Hd & Hphi & Hup & Hms & Hrs & Hzs).
  unfold Camera.rotate_vertical.
  destruct (Rlt_dec (-89.0) (Camera.phi c + delta * Camera.rotation_speed c));
    [destruct (Rlt_dec (Camera.phi c + delta * Camera.rotation_speed c) 89.0)|];
    apply camera_inv_update; simpl; assumption || lra.
Qed.

Lemma zoom_in_inv (c : Camera.t) : camera_inv c -> camera_inv (Camera.zoom_in c).
Proof.
  intros (_ & Hd & Hphi & Hup & Hms & Hrs & Hzs).
  unfold Camera.zoom_in. cbn [Camera.with_distance Camera.distance Camera.zoom_speed].
  destruct (Rlt_dec (Camera.distance c - Camera.zoom_speed c) 10.0);
    apply camera_inv_update; simpl; assumption || lra.
Qed.

Lemma zoom_out_inv (c : Camera.t) : camera_inv c -> camera_inv (Camera.zoom_out c).
Proof.
  intros (_ & Hd & Hphi & Hup & Hms & Hrs & Hzs).
  unfold Camera.zoom_out. cbn [Camera.with_distance Camera.distance Camera.zoom_speed].
  destruct (Rlt_dec 500.0 (Camera.distance c + Camera.zoom_speed c));
    apply camera_inv_update; simpl; assumption || lra.
Qed.

Lemma move_up_inv (c : Camera.t) : camera_inv c -> camera_inv (Camera.move_up c).
Proof.
  intros Hinv. unfold Camera.move_up. apply (camera_inv_shift c); [exact Hinv|].
  apply vec3_ext; simpl; ring.
Qed.

Lemma move_down_inv (c : Camera.t) : camera_inv c -> camera_inv (Camera.move_down c).
Proof.
  intros Hinv. unfold Camera.move_down. apply (camera_inv_shift c); [exact Hinv|].
  apply vec3_ext; simpl; ring.
Qed.

Lemma view_direction_nonzero (c : Camera.t) :
  camera_inv c -> norm (vsub (Camera.target c) (Camera.position c)) <> 0.
Proof.
  intros Hinv. rewrite (view_direction_norm c Hinv).
  destruct Hinv as (_ & Hd & _). lra.
Qed.

Lemma right_direction_nonzero (c : Camera.t) :
  camera_inv c ->
  norm (cross (vsub (Camera.target c) (Camera.position c)) (Camera.up c)) <> 0.
Proof.
  intros Hinv. rewrite (right_direction_norm c Hinv).
  destruct Hinv as (_ & Hd & Hphi & _).
  pose proof (cos_pitch_pos _ Hphi). nra.
Qed.

Lemma move_forward_inv (c : Camera.t) :
  camera_inv c -> exists c', Camera.move_forward c = Some c' /\ camera_inv c'.
Proof.
  intros Hinv. unfold Camera.move_forward.
  rewrite vdiv_defined by (apply view_direction_nonzero, Hinv).
  eexists; split; [reflexivity|].
  apply (camera_inv_shift c); [exact Hinv|]. apply vec3_ext; simpl; ring.
Qed.

Lemma move_backward_inv (c : Camera.t) :
  camera_inv c -> exists c', Camera.move_backward c = Some c' /\ camera_inv c'.
Proof.
  intros Hinv. unfold Camera.move_backward.
  rewrite vdiv_defined by (apply view_direction_nonzero, Hinv).
  eexists; split; [reflexivity|].
  apply (camera_inv_shift c); [exact Hinv|]. apply vec3_ext; simpl; ring.
Qed.

Lemma move_left_inv (c : Camera.t) :
  camera_inv c -> exists c', Camera.move_left c = Some c' /\ camera_inv c'.
Proof.
  intros Hinv. unfold Camera.move_left.
  rewrite vdiv_defined by (apply right_direction_nonzero, Hinv).
  eexists; split; [reflexivity|].
  apply (camera_inv_shift c); [exact Hinv|]. apply vec3_ext; simpl; ring.
Qed.

Lemma move_right_inv (c : Camera.t) :
  camera_inv c -> exists c', Camera.move_right c = Some c' /\ camera_inv c'.
Proof.
  intros Hinv. unfold Camera.move_right.
  rewrite vdiv_defined by (apply right_direction_nonzero, Hinv).
  eexists; split; [reflexivity|].
  apply (camera_inv_shift c); [exact Hinv|]. apply vec3_ext; simpl; ring.
Qed.

Lemma step_inv (c : Camera.t) (op : Camera.call) :
  camera_inv c -> exists c', Camera.step c op = Some c' /\ camera_inv c'.
Proof.
  intros Hinv. destruct op; simpl;
    eauto using reset_view_inv, rotate_horizontal_inv, rotate_vertical_inv, zoom_in_inv,
      zoom_out_inv, move_up_inv, move_down_inv, move_forward_inv, move_backward_inv,
      move_left_inv, move_right_inv.
Qed.

Lemma run_inv (ops : list Camera.call) :
  forall c, camera_inv c -> exists c', Camera.run c ops = Some c' /\ camera_inv c'.
Proof.
  induction ops as [|op ops IH]; intros c Hinv; simpl.
  - eauto.
  - destruct (step_inv c op Hinv) as (c1 & Hstep & Hinv1).
    rewrite Hstep. simpl. apply IH, Hinv1.
Qed.

Lemma session_inv (ops : list Camera.call) :
  exists c, Camera.session ops = Some c /\ camera_inv c.
Proof.
  unfold Camera.session. rewrite camera_init_default. simpl.
  apply run_inv. apply default_camera_inv; reflexivity || lra || (f_equal; lra).
Qed.

(** C3. After every finite sequence of public camera mutations, starting from
    the constructed camera, the calls all return and the eye is
    [target + distance * spherical_direction theta phi]; that point is the eye
    [apply_view_matrix] hands to [gluLookAt]. *)
Theorem C3_eye_follows_spherical_state (ops : list Camera.call) :
  exists c,
    Camera.session ops = Some c
    /\ Camera.position c
       = vadd (Camera.target c)
              (vscale (spherical_direction (Camera.theta c) (Camera.phi c))
                      (Camera.distance c))
    /\ exists eye,
         eye = vadd (Camera.target c)
                    (vscale (spherical_direction (Camera.theta c) (Camera.phi c))
                            (Camera.distance c))
         /\ Camera.apply_view_matrix c
            = [gluLookAt (vx eye) (vy eye) (vz eye)
                         (vx (Camera.target c)) (vy (Camera.target c)) (vz (Camera.target c))
                         (vx (Camera.up c)) (vy (Camera.up c)) (vz (Camera.up c))].
Proof.
  destruct (session_inv ops) as (c & Hrun & Hpos & _).
  exists c. rewrite spherical_offset_direction in Hpos.
  split; [exact Hrun|]. split; [exact Hpos|].
  eexists; split; [reflexivity|]. rewrite <- Hpos. reflexivity.
Qed.

(** C4. After every sequence of calls the pitch is strictly between -89 and
    89; a [rotate_vertical] whose candidate pitch is outside that open
    interval leaves the camera as it was, and one whose candidate is inside
    sets the pitch to the candidate. *)
Theorem C4_pitch_stays_off_the_poles (ops : list Camera.call) :
  exists c,
    Camera.session ops = Some c
    /\ -89 < Camera.phi c < 89
    /\ (forall delta,
          ~ (-89 < Camera.phi c + delta * Camera.rotation_speed c < 89) ->
          Camera.rotate_vertical c delta = c)
    /\ (forall delta,
          -89 < Camera.phi c + delta * Camera.rotation_speed c < 89 ->
          Camera.phi (Camera.rotate_vertical c delta)
          = Camera.phi c + delta * Camera.rotation_speed c).
Proof.
  destruct (session_inv ops) as (c & Hrun & Hinv).
  exists c. split; [exact Hrun|].
  destruct Hinv as (Hpos & Hd & Hphi & _).
  split; [exact Hphi|]. split; intros delta Hcand; unfold Camera.rotate_vertical.
  - assert (Hsame : (if Rlt_dec (-89.0) (Camera.phi c + delta * Camera.rotation_speed c)
                     then if Rlt_dec (Camera.phi c + delta * Camera.rotation_speed c) 89.0
                          then Camera.with_phi c (Camera.phi c + delta * Camera.rotation_speed c)
                          else c
                     else c) = c).
    { destruct (Rlt_dec (-89.0) _); [destruct (Rlt_dec _ 89.0)|]; try reflexivity.
      exfalso; apply Hcand; lra. }
    rewrite Hsame. unfold Camera._update_position_from_spherical, Camera.with_position.
    rewrite <- Hpos. destruct c; reflexivity.
  - destruct (Rlt_dec (-89.0) _) as [_|Hn]; [|exfalso; lra].
    destruct (Rlt_dec _ 89.0) as [_|Hn]; [|exfalso; lra].
    reflexivity.
Qed.

Lemma C4_pitch_at_the_default_view :
  exists c,
    Camera.session [] = Some c
    /\ Camera.rotate_vertical c 45 = c
    /\ Camera.phi (Camera.rotate_vertical c (-1))
       = Camera.phi c + -1 * Camera.rotation_speed c.
Proof.
  destruct (C4_pitch_stays_off_the_poles []) as (c & Hs & Hphi & Hdrop & Happly).
  exists c. split; [exact Hs|].
  assert (Hc : c = default_camera).
  { unfold Camera.session in Hs. rewrite camera_init_default in Hs.
    simpl in Hs. injection Hs as <-. reflexivity. }
  pose proof default_phi_bounds as Hb.
  split.
  - apply Hdrop. rewrite Hc. simpl. lra.
  - apply Happly. rewrite Hc. simpl. lra.
Defined.

(** C5. After every sequence of calls the distance is within [10, 500]
    ([zoom_in] is [max 10 (distance - zoom_speed)], [zoom_out] is
    [min 500 (distance + zoom_speed)]), the two vectors the four horizontal
    moves normalise have the lengths [distance] and [distance * cos phi],
    neither of which is zero, and the four moves return a camera. *)
Theorem C5_distance_clamped_and_divisors_nonzero (ops : list Camera.call) :
  exists c,
    Camera.session ops = Some c
    /\ 10 <= Camera.distance c <= 500
    /\ Camera.distance (Camera.zoom_in c) = Rmax 10 (Camera.distance c - Camera.zoom_speed c)
    /\ Camera.distance (Camera.zoom_out c) = Rmin 500 (Camera.distance c + Camera.zoom_speed c)
    /\ norm (vsub (Camera.target c) (Camera.position c)) = Camera.distance c
    /\ 0 < norm (cross (vsub (Camera.target c) (Camera.position c)) (Camera.up c))
    /\ (exists c1, Camera.move_forward c = Some c1)
    /\ (exists c2, Camera.move_backward c = Some c2)
    /\ (exists c3, Camera.move_left c = Some c3)
    /\ (exists c4, Camera.move_right c = Some c4).
Proof.
  destruct (session_inv ops) as (c & Hrun & Hinv).
  exists c. split; [exact Hrun|].
  pose proof Hinv as (_ & Hd & Hphi & _).
  split; [exact Hd|]. split; [|split].
  - unfold Camera.zoom_in. cbn [Camera.with_distance Camera.distance Camera.zoom_speed].
    destruct (Rlt_dec (Camera.distance c - Camera.zoom_speed c) 10.0); simpl.
    + rewrite Rmax_left; lra.
    + rewrite Rmax_right; lra.
  - unfold Camera.zoom_out. cbn [Camera.with_distance Camera.distance Camera.zoom_speed].
    destruct (Rlt_dec 500.0 (Camera.distance c + Camera.zoom_speed c)); simpl.
    + rewrite Rmin_left; lra.
    + rewrite Rmin_right; lra.
  - split; [apply view_direction_norm, Hinv|].
    split.
    { rewrite (right_direction_norm c Hinv). pose proof (cos_pitch_pos _ Hphi). nra. }
    destruct (move_forward_inv c Hinv) as (c1 & H1 & _).
    destruct (move_backward_inv c Hinv) as (c2 & H2 & _).
    destruct (move_left_inv c Hinv) as (c3 & H3 & _).
    destruct (move_right_inv c Hinv) as (c4 & H4 & _).
    eauto 10.
Qed.

(** *** Planets *)

Lemma advance_in_range (angle speed : R) :
  0 <= angle < 360 -> 0 <= speed <= 360 ->
  0 <= Planet.advance angle speed 1.0 < 360.
Proof.
  intros Ha Hs. unfold Planet.advance.
  destruct (Rle_dec 360 (angle + speed * 1.0)); lra.
Qed.

Lemma update_in_range (p : Planet.t) :
  0 <= Planet.orbit_speed p <= 360 -> 0 <= Planet.rotation_speed p <= 360 ->
  angles_in_range p -> angles_in_range (Planet.update p 1.0).
Proof.
  intros Ho Hr [Hoa Hra]. split; simpl; apply advance_in_range; assumption.
Qed.

(** X1. With both speeds between 0 and 360 degrees per step, the angles stay in
    [[0, 360)] through any number of updates. *)
Theorem update_n_in_range (n : nat) :
  forall p : Planet.t,
    0 <= Planet.orbit_speed p <= 360 -> 0 <= Planet.rotation_speed p <= 360 ->
    angles_in_range p -> angles_in_range (Planet.update_n n p 1.0).
Proof.
  induction n as [|n IH]; intros p Ho Hr Hin; simpl.
  - exact Hin.
  - apply IH; simpl; try assumption. apply update_in_range; assumption.
Qed.

Lemma update_n_in_range_mercury :
  angles_in_range mercury /\ angles_in_range (Planet.update_n 90 mercury 1.0).
Proof.
  assert (Hin : angles_in_range mercury) by (unfold angles_in_range; simpl; lra).
  split; [exact Hin|].
  apply (update_n_in_range 90 mercury); simpl; try lra. exact Hin.
Defined.

(** The last of [n + 1] updates, taken apart. *)
Lemma update_n_last (n : nat) :
  forall p dt, Planet.update_n (S n) p dt = Planet.update (Planet.update_n n p dt) dt.
Proof.
  induction n as [|n IH]; intros p dt; [reflexivity|].
  change (Planet.update_n (S (S n)) p dt) with (Planet.update_n (S n) (Planet.update p dt) dt).
  rewrite IH. reflexivity.
Qed.

Lemma update_n_orbit_speed (n : nat) :
  forall p dt, Planet.orbit_speed (Planet.update_n n p dt) = Planet.orbit_speed p.
Proof.
  induction n as [|n IH]; intros p dt; simpl; [reflexivity|].
  rewrite IH. reflexivity.
Qed.

(** Below a full turn the orbit angle grows by the speed at each update. *)
Lemma orbit_angle_before_wrap (n : nat) :
  forall p,
    Planet.orbit_angle p + Planet.orbit_speed p * INR n < 360 ->
    0 <= Planet.orbit_speed p ->
    Planet.orbit_angle (Planet.update_n n p 1.0)
    = Planet.orbit_angle p + Planet.orbit_speed p * INR n.
Proof.
  induction n as [|n IH]; intros p Hlt Hs.
  - simpl. lra.
  - rewrite update_n_last. rewrite S_INR in *. pose proof (pos_INR n) as Hn.
    cbn [Planet.update Planet.orbit_angle]. rewrite update_n_orbit_speed, IH by nra.
    unfold Planet.advance.
    destruct (Rle_dec 360 (Planet.orbit_angle p + Planet.orbit_speed p * INR n
                           + Planet.orbit_speed p * 1.0)); lra.
Qed.

(** A body with orbit speed 4.0 that starts at orbit angle 0 is back at
    orbit angle 0 after 90 updates of one time unit. *)
Theorem ninety_updates_close_the_orbit :
  Planet.orbit_speed mercury = 4
  /\ Planet.orbit_angle mercury = 0
  /\ Planet.orbit_angle (Planet.update_n 90 mercury 1.0) = 0.
Proof.
  split; [simpl; lra|]. split; [reflexivity|].
  rewrite update_n_last. cbn [Planet.update Planet.orbit_angle].
  rewrite update_n_orbit_speed, orbit_angle_before_wrap.
  - replace (INR 89) with 89 by (rewrite INR_IZR_INZ; reflexivity).
    unfold Planet.advance. simpl Planet.orbit_angle. simpl Planet.orbit_speed.
    destruct (Rle_dec 360 (0 + 4.0 * 89 + 4.0 * 1.0)); lra.
  - replace (INR 89) with 89 by (rewrite INR_IZR_INZ; reflexivity). simpl. lra.
  - simpl. lra.
Qed.

(** C1. Venus is a row of [PLANETS_DATA] and spins backwards.  From angles in
    [[0, 360)], one [update] with [delta_time = 1.0] takes its spin angle to
    [-0.5]: the wrap of [update] only looks at [>= 360]. *)
Theorem C1_venus_spin_angle_leaves_range :
  In (Planet.name venus, Planet.radius venus, Planet.distance venus,
      Planet.orbit_speed venus, Planet.rotation_speed venus) Simulator.PLANETS_DATA
  /\ angles_in_range venus
  /\ Planet.rotation_angle (Planet.update venus 1.0) = -0.5
  /\ Planet.rotation_angle (Planet.update venus 1.0) < 0.
Proof.
  assert (Hr : Planet.rotation_angle (Planet.update venus 1.0) = -0.5).
  { simpl. unfold Planet.advance.
    destruct (Rle_dec 360 (0.5 + -1.0 * 1.0)) as [Hge|_]; lra. }
  split; [right; left; reflexivity|].
  split; [unfold angles_in_range; simpl; lra|].
  split; [exact Hr|]. rewrite Hr. lra.
Qed.

Lemma planet_init_returns `{NumpyRandom}
    (name : string) (radius distance orbit_speed rotation_speed : R)
    (texture_id : Z) (color : R * R * R) (s : RandomState) :
  exists a b s1 s2,
    uniform 0 360 s = (a, s1)
    /\ uniform 0 360 s1 = (b, s2)
    /\ Planet.__init__ name radius distance orbit_speed rotation_speed texture_id color s
       = (Returned (Planet.mk name radius distance orbit_speed rotation_speed
                      texture_id color a b sphere_quadric), s2)
    /\ 0 <= a < 360 /\ 0 <= b < 360.
Proof.
  unfold Planet.__init__, np_random_uniform, uniform, mbind, M_bind, mret, M_ret.
  pose proof (random_sample_range s) as Hu.
  destruct (random_sample s) as [u s1] eqn:E1.
  pose proof (random_sample_range s1) as Hv.
  destruct (random_sample s1) as [v s2] eqn:E2.
  simpl in Hu, Hv.
  exists (0 + (360 - 0) * u), (0 + (360 - 0) * v), s1, s2.
  repeat split; rewrite ?E1, ?E2; try reflexivity; lra.
Qed.

(** C2, as the code has it.  [Planet.__init__] checks nothing: for all
    parameters and every generator state it returns a planet that stores the
    parameters as given, and its two angles are two successive draws of
    [uniform 0 360], each in [[0, 360)]. *)
Theorem C2_construction_stores_parameters `{NumpyRandom}
    (name : string) (radius distance orbit_speed rotation_speed : R)
    (texture_id : Z) (color : R * R * R) (s : RandomState) :
  exists a b s1 s2,
    uniform 0 360 s = (a, s1)
    /\ uniform 0 360 s1 = (b, s2)
    /\ Planet.__init__ name radius distance orbit_speed rotation_speed texture_id color s
       = (Returned (Planet.mk name radius distance orbit_speed rotation_speed
                      texture_id color a b sphere_quadric), s2)
    /\ 0 <= a < 360 /\ 0 <= b < 360.
Proof. apply planet_init_returns. Qed.

(** C2, as stated, fails: a planet of radius -1 on an orbit of radius 0 is
    constructed. *)
Lemma C2_nonpositive_radii_are_accepted :
  exists p s',
    @Planet.__init__ harmonic_random "Pluto" (-1) 0 1 1 (-1) Planet.default_color 0%nat
    = (Returned p, s')
    /\ Planet.radius p = -1 /\ Planet.distance p = 0.
Proof.
  destruct (@planet_init_returns harmonic_random "Pluto" (-1) 0 1 1 (-1)
              Planet.default_color 0%nat) as (a & b & s1 & s2 & _ & _ & Hinit & _).
  rewrite Hinit. eexists _, _. split; [reflexivity|]. simpl. split; reflexivity.
Qed.

(** *** The frame loop *)

Lemma handle_event_planets (s s' : Simulator.t) (e : Simulator.Event) :
  Simulator.handle_event s e = Some s' -> Simulator.planets s' = Simulator.planets s.
Proof.
  destruct e as [|k|b|]; simpl.
  - intros [= <-]; reflexivity.
  - destruct k; simpl; try (intros [= <-]; reflexivity).
    destruct (Camera.reset_view (Simulator.camera s)); simpl; [|discriminate].
    intros [= <-]; reflexivity.
  - destruct (Z.eq_dec b 4%Z); [|destruct (Z.eq_dec b 5%Z)]; intros [= <-]; reflexivity.
  - intros [= <-]; reflexivity.
Qed.

Lemma handle_events_planets (evs : list Simulator.Event) :
  forall s s', Simulator.handle_events s evs = Some s' ->
               Simulator.planets s' = Simulator.planets s.
Proof.
  induction evs as [|e evs IH]; intros s s'; simpl.
  - intros [= <-]; reflexivity.
  - destruct (Simulator.handle_event s e) as [s1|] eqn:He; simpl; [|discriminate].
    intros Hrest. rewrite (IH _ _ Hrest). apply (handle_event_planets _ _ _ He).
Qed.

Lemma handle_input_planets (s s' : Simulator.t) (inp : Simulator.Input) :
  Simulator._handle_input s inp = Some s' -> Simulator.planets s' = Simulator.planets s.
Proof.
  unfold Simulator._handle_input. intros Hev.
  rewrite (handle_events_planets _ _ _ Hev). reflexivity.
Qed.

(** C8. While paused, [_update_simulation] returns the simulator it was
    given, so no angle of any planet changes; while running it replaces
    every planet by its [update] with [delta_time = 1.0] and changes nothing
    else.  Pressing P on a running simulator pauses it without touching the
    planets, and the simulation step that follows changes nothing; a whole
    frame that ends paused leaves the planets as they were. *)
Theorem C8_paused_step_is_identity
    (running show_orbits : bool) (camera : Camera.t) (planets : list Planet.t)
    (frame_count : Z) (stdout : list string) :
  let paused_sim := Simulator.mk running true show_orbits camera planets frame_count stdout in
  let running_sim := Simulator.mk running false show_orbits camera planets frame_count stdout in
  Simulator._update_simulation paused_sim = paused_sim
  /\ Simulator._update_simulation running_sim
     = Simulator.mk running false show_orbits camera
         (map (fun planet => Planet.update planet 1.0) planets) frame_count stdout
  /\ (exists s,
        Simulator.handle_event running_sim (Simulator.KEYDOWN Simulator.K_p) = Some s
        /\ Simulator.paused s = true
        /\ Simulator.planets s = planets
        /\ Simulator._update_simulation s = s)
  /\ (forall s inp s',
        Simulator.frame s inp = Some s' -> Simulator.paused s' = true ->
        Simulator.planets s' = Simulator.planets s).
Proof.
  simpl. split; [reflexivity|]. split; [reflexivity|]. split.
  - eexists; split; [reflexivity|]. repeat split.
  - intros s inp s'. unfold Simulator.frame.
    destruct (Simulator._handle_input s inp) as [s1|] eqn:Hin; simpl; [|discriminate].
    intros [= <-]. unfold Simulator._update_simulation.
    destruct (Simulator.paused s1) eqn:Hp; simpl.
    + intros _. apply (handle_input_planets _ _ _ Hin).
    + rewrite Hp. discriminate.
Qed.

Lemma C8_pause_key_freezes_the_planets :
  exists s',
    Simulator.frame (Simulator.mk true false true default_camera two_planets 0 [])
                    pause_key_pressed = Some s'
    /\ Simulator.paused s' = true
    /\ Simulator.planets s' = two_planets.
Proof.
  destruct (C8_paused_step_is_identity true true default_camera two_planets 0 [])
    as (_ & _ & _ & Hframe).
  eexists.
  refine ((fun Hf Hp => conj Hf (conj Hp (Hframe _ _ _ Hf Hp))) _ _); reflexivity.
Defined.

(** *** The starfield *)

Lemma star_vertices_returns `{NumpyRandom} (n : nat) (d : R) :
  forall s, exists cmds s',
    Simulator.star_vertices n d s = (Returned cmds, s')
    /\ length (vertices cmds) = n
    /\ primitives cmds = [].
Proof.
  induction n as [|n IH]; intros s; simpl.
  - exists [], s. repeat split.
  - unfold mbind, M_bind, np_random_uniform.
    destruct (uniform 0 (2 * PI) s) as [theta s1].
    destruct (uniform 0 PI s1) as [phi s2].
    destruct (IH s2) as (cmds & s3 & Hrest & Hlen & Hprim).
    rewrite Hrest. eexists _, _. split; [reflexivity|]. simpl. auto.
Qed.

(** C9. [_render_starfield] returns the same command stream, and leaves the
    same generator state, whatever the simulator (camera, planets, pause
    flag, frame count) and whatever the state of [np.random] it is called
    with: it starts from [seed 42] each time.  The stream holds 500 points,
    all inside one [GL_POINTS] primitive. *)
Theorem C9_starfield_is_deterministic `{NumpyRandom}
    (self1 self2 : Simulator.t) (rng1 rng2 : RandomState) :
  Simulator._render_starfield self1 rng1 = Simulator._render_starfield self2 rng2
  /\ exists cmds rng',
       Simulator._render_starfield self1 rng1 = (Returned cmds, rng')
       /\ Simulator._render_starfield self1 (seed 42) = (Returned cmds, rng')
       /\ length (vertices cmds) = 500%nat
       /\ primitives cmds = [GL_POINTS].
Proof.
  split; [reflexivity|].
  unfold Simulator._render_starfield, Simulator.np_random_seed, mbind, M_bind, mret, M_ret.
  destruct (star_vertices_returns 500 300.0 (seed 42)) as (stars & s' & Hstars & Hlen & Hprim).
  rewrite Hstars. eexists _, _. split; [reflexivity|]. split; [reflexivity|].
  rewrite !vertices_app, !primitives_app, Hprim, length_app, length_app, Hlen.
  split; reflexivity.
Qed.

(** *** The orbit path *)

Lemma INR_128 : INR 128 = 128.
Proof. rewrite INR_IZR_INZ. reflexivity. Qed.

Lemma orbit_vertex_point (p : Planet.t) (i : nat) :
  Planet.orbit_vertex p 128 i
  = glVertex3f (Planet.distance p * cos (2 * PI * INR i / 128)) 0
               (Planet.distance p * sin (2 * PI * INR i / 128)).
Proof.
  unfold Planet.orbit_vertex. rewrite INR_128.
  replace (INR i / 128 * 2 * PI) with (2 * PI * INR i / 128) by lra.
  f_equal. lra.
Qed.

Lemma orbit_vertices (p : Planet.t) (l : list nat) :
  vertices (map (Planet.orbit_vertex p 128) l) = map (orbit_point (Planet.distance p)) l.
Proof.
  induction l as [|i l IH]; [reflexivity|].
  cbn [map]. rewrite orbit_vertex_point. cbn [vertices]. rewrite IH. reflexivity.
Qed.

Lemma orbit_line_vertices (p : Planet.t) :
  vertices (Planet.draw_orbit_line p) = map (orbit_point (Planet.distance p)) (seq 0 128).
Proof.
  unfold Planet.draw_orbit_line.
  rewrite !vertices_app, orbit_vertices. cbn [vertices app].
  apply app_nil_r.
Qed.

Lemma orbit_line_primitives (p : Planet.t) :
  primitives (Planet.draw_orbit_line p) = [GL_LINE_LOOP].
Proof.
  unfold Planet.draw_orbit_line. rewrite !primitives_app.
  assert (Hmid : forall l, primitives (map (Planet.orbit_vertex p 128) l) = []).
  { induction l as [|i l IH]; [reflexivity|].
    cbn [map]. rewrite orbit_vertex_point. exact IH. }
  rewrite Hmid. reflexivity.
Qed.

Lemma orbit_line_nth (p : Planet.t) (i : nat) :
  (i < 128)%nat ->
  nth i (vertices (Planet.draw_orbit_line p)) (0, 0, 0) = orbit_point (Planet.distance p) i.
Proof.
  intros Hi. rewrite orbit_line_vertices.
  rewrite (nth_indep _ (0, 0, 0) (orbit_point (Planet.distance p) 0))
    by (rewrite length_map, length_seq; exact Hi).
  rewrite map_nth, seq_nth by exact Hi. reflexivity.
Qed.

Lemma orbit_point_on_circle (r : R) (i : nat) (x y z : R) :
  0 <= r -> orbit_point r i = (x, y, z) -> y = 0 /\ sqrt (x * x + z * z) = r.
Proof.
  unfold orbit_point. intros Hr [= <- <- <-]. split; [reflexivity|].
  set (a := 2 * PI * INR i / 128). pose proof (sin_cos_squares a) as Ha.
  replace (r * cos a * (r * cos a) + r * sin a * (r * sin a))
    with (r * r * (sin a * sin a + cos a * cos a)) by ring.
  rewrite Ha, Rmult_1_r. apply sqrt_square, Hr.
Qed.

Lemma last_sample_below_axis : sin (2 * PI * INR 127 / 128) < 0.
Proof.
  replace (INR 127) with 127 by (rewrite INR_IZR_INZ; reflexivity).
  pose proof PI_RGT_0. apply sin_lt_0; lra.
Qed.

Lemma update_n_distance (n : nat) :
  forall p dt, Planet.distance (Planet.update_n n p dt) = Planet.distance p.
Proof.
  induction n as [|n IH]; intros p dt; simpl; [reflexivity|].
  rewrite IH. reflexivity.
Qed.

Lemma orbit_line_of_distance (p q : Planet.t) :
  Planet.distance q = Planet.distance p ->
  Planet.draw_orbit_line q = Planet.draw_orbit_line p.
Proof.
  intros Hd. unfold Planet.draw_orbit_line. do 2 f_equal.
  apply map_ext. intros i. unfold Planet.orbit_vertex. rewrite Hd. reflexivity.
Qed.

(** C6, for a body whose orbit radius is positive.  [draw_orbit_line] emits,
    inside one [GL_LINE_LOOP], exactly 128 points; the [i]-th is the point
    of the circle at the angle [2 * PI * i / 128]; every point has [y = 0]
    and lies at the distance [orbitRadius] from the origin; the first and
    the last point differ; the command stream depends on the planet through
    its orbit radius only, so it is the same after any number of updates
    and on every call. *)
Theorem C6_orbit_path_samples (p : Planet.t) :
  0 < Planet.distance p ->
  let pts := vertices (Planet.draw_orbit_line p) in
  length pts = 128%nat
  /\ (forall i, (i < 128)%nat -> nth i pts (0, 0, 0) = orbit_point (Planet.distance p) i)
  /\ (forall x y z, In (x, y, z) pts -> y = 0 /\ sqrt (x * x + z * z) = Planet.distance p)
  /\ primitives (Planet.draw_orbit_line p) = [GL_LINE_LOOP]
  /\ nth 0 pts (0, 0, 0) <> nth 127 pts (0, 0, 0)
  /\ (forall q, Planet.distance q = Planet.distance p ->
                Planet.draw_orbit_line q = Planet.draw_orbit_line p)
  /\ (forall n dt, Planet.draw_orbit_line (Planet.update_n n p dt) = Planet.draw_orbit_line p).
Proof.
  intros Hd pts. subst pts.
  refine (conj _ (conj _ (conj _ (conj _ (conj _ (conj _ _)))))).
  - rewrite orbit_line_vertices, length_map, length_seq. reflexivity.
  - apply orbit_line_nth.
  - intros x y z Hin. rewrite orbit_line_vertices in Hin.
    apply in_map_iff in Hin as (i & Hi & _).
    apply (orbit_point_on_circle _ _ _ _ _ (Rlt_le _ _ Hd) Hi).
  - apply orbit_line_primitives.
  - rewrite !orbit_line_nth by lia. unfold orbit_point. intros Heq.
    assert (Hz := f_equal snd Heq). cbn [snd] in Hz.
    pose proof last_sample_below_axis as Hneg.
    change (INR 0) with 0 in Hz.
    replace (2 * PI * 0 / 128) with 0 in Hz by lra.
    rewrite sin_0 in Hz. nra.
  - apply orbit_line_of_distance.
  - intros n dt. apply orbit_line_of_distance, update_n_distance.
Qed.

Lemma C6_orbit_path_samples_mercury :
  0 < Planet.distance mercury
  /\ length (vertices (Planet.draw_orbit_line mercury)) = 128%nat
  /\ nth 0 (vertices (Planet.draw_orbit_line mercury)) (0, 0, 0)
     <> nth 127 (vertices (Planet.draw_orbit_line mercury)) (0, 0, 0).
Proof.
  assert (Hd : 0 < Planet.distance mercury) by (simpl; lra).
  destruct (C6_orbit_path_samples mercury Hd) as (Hlen & _ & _ & _ & Hends & _).
  split; [exact Hd|]. split; [exact Hlen|exact Hends].
Defined.

(** C6, as stated for every body, fails: on an orbit of radius zero the first
    and the last of the 128 points coincide. *)
Lemma C6_degenerate_orbit_is_a_point :
  Planet.distance origin_body <= 0
  /\ nth 0 (vertices (Planet.draw_orbit_line origin_body)) (0, 0, 0)
     = nth 127 (vertices (Planet.draw_orbit_line origin_body)) (0, 0, 0).
Proof.
  split; [simpl; lra|].
  rewrite !orbit_line_nth by lia. unfold orbit_point; simpl Planet.distance.
  f_equal; [f_equal|]; lra.
Qed.

(** *** The texture table *)

Section Textures.
Context `{Externals}.

Lemma load_texture_cached (self : Renderer.t) (w : World) (name path : string) (h : Z) :
  Renderer.textures self !! name = Some h ->
  Renderer.load_texture name path (self, w) = (Returned h, (self, w)).
Proof. intros Hin. unfold Renderer.load_texture. simpl. rewrite Hin. reflexivity. Qed.

Lemma stores_result_external {A} (name : string) (m : M World A)
    (k : A -> M Renderer.state Z) :
  (forall a, stores_result name (k a)) ->
  stores_result name (Renderer.external m ≫= k).
Proof.
  intros Hk st. unfold mbind, M_bind, Renderer.external.
  destruct (m (snd st)) as [[a|e] w]; [|reflexivity].
  exact (Hk a (fst st, w)).
Qed.

Lemma load_from_file_stores (name path : string) :
  stores_result name (Renderer.load_from_file name path).
Proof.
  unfold Renderer.load_from_file.
  repeat (apply stores_result_external; intros ?).
  intros st. reflexivity.
Qed.

(** [load_texture] returns: a cached handle with the state untouched, the
    handle the [try] block stored, or -1 with the table untouched. *)
Lemma load_texture_returns (name path : string) (st : Renderer.state) :
  exists v st',
    Renderer.load_texture name path st = (Returned v, st')
    /\ match Renderer.textures (fst st) !! name with
       | Some h => v = h /\ st' = st
       | None =>
           match Renderer.load_from_file name path st with
           | (Returned h, st1) =>
               v = h /\ st' = st1
               /\ Renderer.textures (fst st') = <[name := h]> (Renderer.textures (fst st))
           | (Raised e, st1) =>
               v = (-1)%Z /\ Renderer.textures (fst st') = Renderer.textures (fst st)
           end
       end.
Proof.
  unfold Renderer.load_texture.
  destruct (Renderer.textures (fst st) !! name) as [h|] eqn:Hlook.
  - eauto.
  - unfold try_except. pose proof (load_from_file_stores name path st) as Hst.
    destruct (Renderer.load_from_file name path st) as [[h|e] st1].
    + eauto 6.
    + eexists _, _. split; [reflexivity|]. simpl. rewrite Hst. auto.
Qed.

(** An entry of the table survives every later [load_texture]. *)
Lemma load_texture_keeps (name path : string) (st : Renderer.state) (other : string) (h : Z) :
  Renderer.textures (fst st) !! other = Some h ->
  Renderer.textures (fst (snd (Renderer.load_texture name path st))) !! other = Some h.
Proof.
  intros Hin.
  destruct (load_texture_returns name path st) as (v & st' & Hload & Hcases).
  rewrite Hload. simpl.
  destruct (Renderer.textures (fst st) !! name) as [h'|] eqn:Hlook.
  - destruct Hcases as [_ ->]. exact Hin.
  - destruct (Renderer.load_from_file name path st) as [[h1|e] st1].
    + destruct Hcases as (_ & _ & ->).
      rewrite lookup_insert_ne; [exact Hin|]. intros ->. congruence.
    + destruct Hcases as [_ ->]. exact Hin.
Qed.

Lemma load_textures_keep (calls : list (string * string)) :
  forall (st : Renderer.state) (other : string) (h : Z),
    Renderer.textures (fst st) !! other = Some h ->
    Renderer.textures (fst (Renderer.load_textures calls st)) !! other = Some h.
Proof.
  induction calls as [|[name path] calls IH]; intros st other h Hin; simpl.
  - exact Hin.
  - apply IH, load_texture_keeps, Hin.
Qed.

End Textures.

(** C7. [load_texture] always returns; when its [try] block raises it
    returns -1 and stores nothing.  A planet whose handle is negative (-1 in
    particular) is drawn with texturing disabled and its own colour; a planet
    whose handle is not negative is drawn with its texture bound. *)
Theorem C7_failed_texture_falls_back_to_colour `{Externals} :
  (forall name path st,
      exists v st', Renderer.load_texture name path st = (Returned v, st'))
  /\ (forall name path st e st1,
        Renderer.textures (fst st) !! name = None ->
        Renderer.load_from_file name path st = (Raised e, st1) ->
        exists st',
          Renderer.load_texture name path st = (Returned (-1)%Z, st')
          /\ Renderer.textures (fst st') = Renderer.textures (fst st))
  /\ (forall p,
        (Planet.texture_id p < 0)%Z ->
        Planet.draw p
        = [glPushMatrix;
           glTranslatef (fst (fst (Planet.get_position p))) (snd (fst (Planet.get_position p)))
                        (snd (Planet.get_position p));
           glRotatef (Planet.rotation_angle p) 0 1 0;
           glDisable GL_TEXTURE_2D;
           glColor3f (fst (fst (Planet.color p))) (snd (fst (Planet.color p)))
                     (snd (Planet.color p));
           gluSphere (Planet.quadric p) (Planet.radius p) 32 32;
           glDisable GL_TEXTURE_2D;
           glPopMatrix])
  /\ (forall p,
        (0 <= Planet.texture_id p)%Z ->
        Planet.draw p
        = [glPushMatrix;
           glTranslatef (fst (fst (Planet.get_position p))) (snd (fst (Planet.get_position p)))
                        (snd (Planet.get_position p));
           glRotatef (Planet.rotation_angle p) 0 1 0;
           glEnable GL_TEXTURE_2D;
           glBindTexture GL_TEXTURE_2D (Planet.texture_id p);
           gluSphere (Planet.quadric p) (Planet.radius p) 32 32;
           glDisable GL_TEXTURE_2D;
           glPopMatrix]).
Proof.
  refine (conj _ (conj _ (conj _ _))).
  - intros name path st.
    destruct (load_texture_returns name path st) as (v & st' & Hload & _). eauto.
  - intros name path st e st1 Hnone Hraise.
    destruct (load_texture_returns name path st) as (v & st' & Hload & Hcases).
    rewrite Hnone, Hraise in Hcases. destruct Hcases as [-> Htable]. eauto.
  - intros p Hneg. unfold Planet.draw, Planet.get_position. cbn [fst snd app].
    destruct (Z_ge_dec (Planet.texture_id p) 0) as [Hge|_]; [lia|].
    cbn [app]. repeat f_equal; lra.
  - intros p Hpos. unfold Planet.draw, Planet.get_position. cbn [fst snd app].
    destruct (Z_ge_dec (Planet.texture_id p) 0) as [_|Hn]; [|lia].
    cbn [app]. repeat f_equal; lra.
Qed.

Lemma C7_missing_mars_texture :
  (exists st',
      @Renderer.load_texture recorded_world "mars" "textures/mars.png" (empty_renderer, [])
      = (Returned (-1)%Z, st')
      /\ Renderer.textures (fst st') = Renderer.textures empty_renderer)
  /\ In (glColor3f 0.8 0.8 0.8) (Planet.draw untextured_mars)
  /\ In (glBindTexture GL_TEXTURE_2D 1) (Planet.draw textured_earth).
Proof.
  destruct (@C7_failed_texture_falls_back_to_colour recorded_world)
    as (_ & Hfail & Hflat & Hbound).
  split; [|split].
  - apply (Hfail "mars" "textures/mars.png" (empty_renderer, [])
             "FileNotFoundError"
             (empty_renderer, ["Image.open textures/mars.png"])); reflexivity.
  - rewrite (Hflat untextured_mars) by (simpl; lia). simpl. tauto.
  - rewrite (Hbound textured_earth) by (simpl; lia). simpl. tauto.
Defined.

(** C10. A name that is in the table is answered from the table: the stored
    handle is returned and neither the renderer nor the world changes,
    whatever the path.  When a call returns [h] and the name is in the table
    afterwards, the table holds [h] for it, and after any further
    [load_texture] calls a call with that name returns [h] again, from the
    table.  When the [try] block raises, -1 is returned, the name is still
    absent ([get_texture] answers -1), and the next call with that name runs
    the [try] block again. *)
Theorem C10_texture_table_caches_by_name `{Externals} :
  (forall self w name path h,
      Renderer.textures self !! name = Some h ->
      Renderer.load_texture name path (self, w) = (Returned h, (self, w)))
  /\ (forall name path st h st1,
        Renderer.load_texture name path st = (Returned h, st1) ->
        is_Some (Renderer.textures (fst st1) !! name) ->
        Renderer.textures (fst st1) !! name = Some h
        /\ forall calls w path',
             Renderer.load_texture name path' (fst (Renderer.load_textures calls st1), w)
             = (Returned h, (fst (Renderer.load_textures calls st1), w)))
  /\ (forall name path st e st1,
        Renderer.textures (fst st) !! name = None ->
        Renderer.load_from_file name path st = (Raised e, st1) ->
        exists st',
          Renderer.load_texture name path st = (Returned (-1)%Z, st')
          /\ Renderer.textures (fst st') !! name = None
          /\ Renderer.get_texture (fst st') name = (-1)%Z
          /\ forall path2 w2,
               Renderer.load_texture name path2 (fst st', w2)
               = try_except (Renderer.load_from_file name path2)
                            (Renderer.load_failed name) (fst st', w2)).
Proof.
  refine (conj _ (conj _ _)).
  - intros self w name path h. apply load_texture_cached.
  - intros name path st h st1 Hload Hstored.
    assert (Hh : Renderer.textures (fst st1) !! name = Some h).
    { destruct (load_texture_returns name path st) as (v & st' & Hload' & Hcases).
      rewrite Hload in Hload'. injection Hload' as <- <-.
      destruct (Renderer.textures (fst st) !! name) as [h0|] eqn:Hlook.
      - destruct Hcases as [-> ->]. exact Hlook.
      - destruct (Renderer.load_from_file name path st) as [[h1|e] st2].
        + destruct Hcases as (-> & _ & ->). apply lookup_insert_eq.
        + destruct Hcases as [_ Hsame]. rewrite Hsame, Hlook in Hstored.
          destruct Hstored as [x Hx]. discriminate. }
    split; [exact Hh|]. intros calls w path'.
    apply load_texture_cached, load_textures_keep, Hh.
  - intros name path st e st1 Hnone Hraise.
    destruct (load_texture_returns name path st) as (v & st' & Hload & Hcases).
    rewrite Hnone, Hraise in Hcases. destruct Hcases as [-> Htable].
    exists st'. split; [exact Hload|].
    assert (Habsent : Renderer.textures (fst st') !! name = None)
      by (rewrite Htable; exact Hnone).
    split; [exact Habsent|]. split.
    + unfold Renderer.get_texture. rewrite Habsent. reflexivity.
    + intros path2 w2. unfold Renderer.load_texture. simpl. rewrite Habsent. reflexivity.
Qed.

Lemma C10_earth_texture_is_cached :
  exists st1,
    @Renderer.load_texture recorded_world "earth" "textures/earth.png" (empty_renderer, [])
    = (Returned 1%Z, st1)
    /\ Renderer.textures (fst st1) !! "earth" = Some 1%Z
    /\ @Renderer.load_texture recorded_world "earth" "elsewhere.png"
         (fst (@Renderer.load_textures recorded_world [("mars", "textures/mars.png")] st1), [])
       = (Returned 1%Z,
          (fst (@Renderer.load_textures recorded_world [("mars", "textures/mars.png")] st1), [])).
Proof.
  destruct (@C10_texture_table_caches_by_name recorded_world) as (_ & Hlater & _).
  eexists. split; [reflexivity|].
  refine ((fun Hpair => conj (proj1 Hpair)
             (proj2 Hpair [("mars", "textures/mars.png")] [] "elsewhere.png"))
            (Hlater "earth" "textures/earth.png" (empty_renderer, []) 1%Z _ eq_refl _)).
  eexists. vm_compute. reflexivity.
Defined.

(** *** Camera: how the calls compose *)

Lemma run_app (ops1 ops2 : list Camera.call) :
  forall c, Camera.run c (ops1 ++ ops2) = c' ← Camera.run c ops1; Camera.run c' ops2.
Proof.
  induction ops1 as [|op ops1 IH]; intros c; simpl; [reflexivity|].
  destruct (Camera.step c op) as [c1|]; simpl; [apply IH|reflexivity].
Qed.

Lemma update_position_fixes (c : Camera.t) :
  camera_inv c -> Camera._update_position_from_spherical c = c.
Proof.
  intros (Hpos & _). unfold Camera._update_position_from_spherical, Camera.with_position.
  rewrite <- Hpos. destruct c; reflexivity.
Qed.

Lemma rotate_horizontal_add (c : Camera.t) (a b : R) :
  Camera.rotate_horizontal (Camera.rotate_horizontal c a) b
  = Camera.rotate_horizontal c (a + b).
Proof.
  unfold Camera.rotate_horizontal, Camera._update_position_from_spherical,
    Camera.with_theta, Camera.with_position; simpl.
  replace (Camera.theta c + a * Camera.rotation_speed c + b * Camera.rotation_speed c)
    with (Camera.theta c + (a + b) * Camera.rotation_speed c) by ring.
  reflexivity.
Qed.

(** X4. Yaw rotations add up: on every camera, [rotate_horizontal] by [a]
    and then by [b] is [rotate_horizontal] by [a + b].  After any sequence of
    calls, a rotation followed by the opposite rotation gives the camera
    back. *)
Theorem rotate_horizontal_adds_up :
  (forall c a b,
      Camera.rotate_horizontal (Camera.rotate_horizontal c a) b
      = Camera.rotate_horizontal c (a + b))
  /\ (forall ops delta,
        exists c,
          Camera.session ops = Some c
          /\ Camera.rotate_horizontal (Camera.rotate_horizontal c delta) (- delta) = c).
Proof.
  split; [exact rotate_horizontal_add|].
  intros ops delta. destruct (session_inv ops) as (c & Hrun & Hinv).
  exists c. split; [exact Hrun|].
  rewrite rotate_horizontal_add. unfold Camera.rotate_horizontal, Camera.with_theta.
  replace (Camera.theta c + (delta + - delta) * Camera.rotation_speed c)
    with (Camera.theta c) by ring.
  replace (Camera.mk (Camera.position c) (Camera.target c) (Camera.up c) (Camera.move_speed c)
             (Camera.rotation_speed c) (Camera.zoom_speed c) (Camera.distance c)
             (Camera.theta c) (Camera.phi c)) with c by (destruct c; reflexivity).
  apply update_position_fixes, Hinv.
Qed.

Lemma vsub_shift_add (a b v : vec3) : vsub (vadd a v) (vadd b v) = vsub a b.
Proof. apply vec3_ext; simpl; ring. Qed.

Lemma vsub_shift_sub (a b v : vec3) : vsub (vsub a v) (vsub b v) = vsub a b.
Proof. apply vec3_ext; simpl; ring. Qed.

Lemma vadd_vsub_cancel (a v : vec3) : vsub (vadd a v) v = a.
Proof. destruct a; apply vec3_ext; simpl; ring. Qed.

Lemma vsub_vadd_cancel (a v : vec3) : vadd (vsub a v) v = a.
Proof. destruct a; apply vec3_ext; simpl; ring. Qed.

Lemma move_forward_backward (c : Camera.t) :
  camera_inv c -> (c1 ← Camera.move_forward c; Camera.move_backward c1) = Some c.
Proof.
  intros Hinv. pose proof (view_direction_nonzero c Hinv) as Hn.
  unfold Camera.move_forward. rewrite vdiv_defined by exact Hn. simpl.
  unfold Camera.move_backward; simpl.
  rewrite vsub_shift_add, vdiv_defined by exact Hn. simpl.
  unfold Camera.with_target, Camera.with_position; simpl.
  rewrite !vadd_vsub_cancel. destruct c; reflexivity.
Qed.

Lemma move_backward_forward (c : Camera.t) :
  camera_inv c -> (c1 ← Camera.move_backward c; Camera.move_forward c1) = Some c.
Proof.
  intros Hinv. pose proof (view_direction_nonzero c Hinv) as Hn.
  unfold Camera.move_backward. rewrite vdiv_defined by exact Hn. simpl.
  unfold Camera.move_forward; simpl.
  rewrite vsub_shift_sub, vdiv_defined by exact Hn. simpl.
  unfold Camera.with_target, Camera.with_position; simpl.
  rewrite !vsub_vadd_cancel. destruct c; reflexivity.
Qed.

Lemma move_left_right (c : Camera.t) :
  camera_inv c -> (c1 ← Camera.move_left c; Camera.move_right c1) = Some c.
Proof.
  intros Hinv. pose proof (right_direction_nonzero c Hinv) as Hn.
  unfold Camera.move_left. rewrite vdiv_defined by exact Hn. simpl.
  unfold Camera.move_right; simpl.
  rewrite vsub_shift_sub, vdiv_defined by exact Hn. simpl.
  unfold Camera.with_target, Camera.with_position; simpl.
  rewrite !vsub_vadd_cancel. destruct c; reflexivity.
Qed.

Lemma move_right_left (c : Camera.t) :
  camera_inv c -> (c1 ← Camera.move_right c; Camera.move_left c1) = Some c.
Proof.
  intros Hinv. pose proof (right_direction_nonzero c Hinv) as Hn.
  unfold Camera.move_right. rewrite vdiv_defined by exact Hn. simpl.
  unfold Camera.move_left; simpl.
  rewrite vsub_shift_add, vdiv_defined by exact Hn. simpl.
  unfold Camera.with_target, Camera.with_position; simpl.
  rewrite !vadd_vsub_cancel. destruct c; reflexivity.
Qed.

Lemma move_up_down (c : Camera.t) :
  Camera.move_down (Camera.move_up c) = c /\ Camera.move_up (Camera.move_down c) = c.
Proof.
  unfold Camera.move_down, Camera.move_up, Camera.with_target, Camera.with_position; simpl.
  rewrite !vadd_vsub_cancel, !vsub_vadd_cancel. destruct c; split; reflexivity.
Qed.

(** X5. Opposite moves undo each other.  After any sequence of calls,
    forward then backward, backward then forward, left then right and right
    then left all return the camera they started from; up then down and
    down then up do so on every camera. *)
Theorem opposite_moves_cancel :
  (forall ops,
      exists c,
        Camera.session ops = Some c
        /\ (c1 ← Camera.move_forward c; Camera.move_backward c1) = Some c
        /\ (c1 ← Camera.move_backward c; Camera.move_forward c1) = Some c
        /\ (c1 ← Camera.move_left c; Camera.move_right c1) = Some c
        /\ (c1 ← Camera.move_right c; Camera.move_left c1) = Some c)
  /\ (forall c,
        Camera.move_down (Camera.move_up c) = c
        /\ Camera.move_up (Camera.move_down c) = c).
Proof.
  split; [|exact move_up_down].
  intros ops. destruct (session_inv ops) as (c & Hrun & Hinv).
  exists c. split; [exact Hrun|].
  auto using move_forward_backward, move_backward_forward, move_left_right, move_right_left.
Qed.

Lemma default_camera_literals :
  Camera.mk (mkvec3 30.0 20.0 30.0) (mkvec3 0.0 0.0 0.0) (mkvec3 0 1 0) 0.5 2 1
            default_distance default_theta default_phi
  = default_camera.
Proof. unfold default_camera. f_equal; try lra. f_equal; lra. Qed.

(** X6. [reset_view] restores the constructed camera: after any sequence of
    calls, one more [reset_view] returns exactly the camera [__init__]
    builds. *)
Theorem reset_view_restores_the_default (ops : list Camera.call) :
  Camera.__init__ = Some default_camera
  /\ Camera.session (ops ++ [Camera.ResetView]) = Some default_camera.
Proof.
  split; [exact camera_init_default|].
  destruct (session_inv ops) as (c & Hrun & Hinv).
  unfold Camera.session in *. rewrite camera_init_default in *. simpl in *.
  rewrite run_app, Hrun. simpl.
  destruct Hinv as (_ & _ & _ & Hup & Hms & Hrs & Hzs).
  unfold Camera.reset_view. rewrite recalculate_default by reflexivity. simpl.
  rewrite Hup, Hms, Hrs, Hzs, default_camera_literals. reflexivity.
Qed.

Lemma zoom_in_distance (c : Camera.t) :
  Camera.distance (Camera.zoom_in c) = Rmax 10 (Camera.distance c - Camera.zoom_speed c).
Proof.
  unfold Camera.zoom_in. cbn [Camera.with_distance Camera.distance Camera.zoom_speed].
  destruct (Rlt_dec (Camera.distance c - Camera.zoom_speed c) 10.0); simpl.
  - rewrite Rmax_left; lra.
  - rewrite Rmax_right; lra.
Qed.

Lemma zoom_out_distance (c : Camera.t) :
  Camera.distance (Camera.zoom_out c) = Rmin 500 (Camera.distance c + Camera.zoom_speed c).
Proof.
  unfold Camera.zoom_out. cbn [Camera.with_distance Camera.distance Camera.zoom_speed].
  destruct (Rlt_dec 500.0 (Camera.distance c + Camera.zoom_speed c)); simpl.
  - rewrite Rmin_left; lra.
  - rewrite Rmin_right; lra.
Qed.

Lemma zoom_keeps_direction (c : Camera.t) :
  Camera.target (Camera.zoom_in c) = Camera.target c
  /\ Camera.theta (Camera.zoom_in c) = Camera.theta c
  /\ Camera.phi (Camera.zoom_in c) = Camera.phi c
  /\ Camera.target (Camera.zoom_out c) = Camera.target c
  /\ Camera.theta (Camera.zoom_out c) = Camera.theta c
  /\ Camera.phi (Camera.zoom_out c) = Camera.phi c.
Proof.
  unfold Camera.zoom_in, Camera.zoom_out.
  cbn [Camera.with_distance Camera.distance Camera.zoom_speed].
  destruct (Rlt_dec (Camera.distance c - Camera.zoom_speed c) 10.0);
    destruct (Rlt_dec 500.0 (Camera.distance c + Camera.zoom_speed c));
    simpl; auto 10.
Qed.

Lemma repeated_zoom_in (n : nat) :
  forall c, camera_inv c ->
    exists c',
      Camera.run c (repeat Camera.ZoomIn n) = Some c'
      /\ camera_inv c'
      /\ Camera.distance c' = Rmax 10 (Camera.distance c - INR n)
      /\ Camera.target c' = Camera.target c
      /\ Camera.theta c' = Camera.theta c
      /\ Camera.phi c' = Camera.phi c.
Proof.
  induction n as [|n IH]; intros c Hinv.
  - exists c. split; [reflexivity|]. split; [exact Hinv|]. split; [|auto].
    destruct Hinv as (_ & Hd & _). change (INR 0) with 0. rewrite Rmax_right; lra.
  - pose proof (zoom_in_inv c Hinv) as Hinv1.
    destruct (IH _ Hinv1) as (c' & Hrun & Hinv' & Hd' & Ht' & Hth' & Hph').
    exists c'. cbn [repeat Camera.run Camera.step mbind option_bind].
    split; [exact Hrun|]. split; [exact Hinv'|].
    destruct (zoom_keeps_direction c) as (Ht & Hth & Hph & _).
    rewrite Ht', Hth', Hph', Ht, Hth, Hph, Hd', zoom_in_distance, S_INR.
    destruct Hinv as (_ & _ & _ & _ & _ & _ & Hzs). rewrite Hzs.
    split; [|auto]. pose proof (pos_INR n) as Hn. unfold Rmax.
    repeat match goal with
           | |- context [Rle_dec ?a ?b] => destruct (Rle_dec a b)
           | Hc : context [Rle_dec ?a ?b] |- _ => destruct (Rle_dec a b)
           end; lra.
Qed.

Lemma repeated_zoom_out (n : nat) :
  forall c, camera_inv c ->
    exists c',
      Camera.run c (repeat Camera.ZoomOut n) = Some c'
      /\ camera_inv c'
      /\ Camera.distance c' = Rmin 500 (Camera.distance c + INR n)
      /\ Camera.target c' = Camera.target c
      /\ Camera.theta c' = Camera.theta c
      /\ Camera.phi c' = Camera.phi c.
Proof.
  induction n as [|n IH]; intros c Hinv.
  - exists c. split; [reflexivity|]. split; [exact Hinv|]. split; [|auto].
    destruct Hinv as (_ & Hd & _). change (INR 0) with 0. rewrite Rmin_right; lra.
  - pose proof (zoom_out_inv c Hinv) as Hinv1.
    destruct (IH _ Hinv1) as (c' & Hrun & Hinv' & Hd' & Ht' & Hth' & Hph').
    exists c'. cbn [repeat Camera.run Camera.step mbind option_bind].
    split; [exact Hrun|]. split; [exact Hinv'|].
    destruct (zoom_keeps_direction c) as (_ & _ & _ & Ht & Hth & Hph).
    rewrite Ht', Hth', Hph', Ht, Hth, Hph, Hd', zoom_out_distance, S_INR.
    destruct Hinv as (_ & _ & _ & _ & _ & _ & Hzs). rewrite Hzs.
    split; [|auto]. pose proof (pos_INR n) as Hn. unfold Rmin.
    repeat match goal with
           | |- context [Rle_dec ?a ?b] => destruct (Rle_dec a b)
           | Hc : context [Rle_dec ?a ?b] |- _ => destruct (Rle_dec a b)
           end; lra.
Qed.

(** X7. Zooming [n] times.  After any sequence of calls that leaves the
    distance [d], [n] further [zoom_in] calls leave the distance
    [max 10 (d - n)] and [n] further [zoom_out] calls leave [min 500 (d + n)];
    neither moves the target nor changes yaw or pitch. *)
Theorem repeated_zoom_saturates (ops : list Camera.call) (n : nat) :
  exists c c_in c_out,
    Camera.session ops = Some c
    /\ Camera.session (ops ++ repeat Camera.ZoomIn n) = Some c_in
    /\ Camera.session (ops ++ repeat Camera.ZoomOut n) = Some c_out
    /\ Camera.distance c_in = Rmax 10 (Camera.distance c - INR n)
    /\ Camera.distance c_out = Rmin 500 (Camera.distance c + INR n)
    /\ Camera.target c_in = Camera.target c /\ Camera.target c_out = Camera.target c
    /\ Camera.theta c_in = Camera.theta c /\ Camera.theta c_out = Camera.theta c
    /\ Camera.phi c_in = Camera.phi c /\ Camera.phi c_out = Camera.phi c.
Proof.
  destruct (session_inv ops) as (c & Hrun & Hinv).
  destruct (repeated_zoom_in n c Hinv) as (c_in & Hin & _ & Hdi & Hti & Hthi & Hphi).
  destruct (repeated_zoom_out n c Hinv) as (c_out & Hout & _ & Hdo & Hto & Htho & Hpho).
  exists c, c_in, c_out. split; [exact Hrun|].
  unfold Camera.session in *. destruct Camera.__init__ as [c0|]; [|discriminate].
  simpl in *. rewrite !run_app, Hrun. simpl. rewrite Hin, Hout.
  repeat split; assumption.
Qed.

Lemma norm_square (v : vec3) : norm v * norm v = vx v * vx v + vy v * vy v + vz v * vz v.
Proof. unfold norm. apply sqrt_sqrt. nra. Qed.

(** A vector divided by its length and scaled by [m] has the length [m]. *)
Lemma unit_step_norm (v : vec3) (m : R) :
  0 <= m -> norm v <> 0 ->
  norm (vscale (mkvec3 (vx v / norm v) (vy v / norm v) (vz v / norm v)) m) = m.
Proof.
  intros Hm Hn. apply norm_of_squares; [exact Hm|]. simpl.
  pose proof (norm_square v) as Hsq. set (k := norm v) in *.
  replace (vx v / k * m * (vx v / k * m) + vy v / k * m * (vy v / k * m)
           + vz v / k * m * (vz v / k * m))
    with ((vx v * vx v + vy v * vy v + vz v * vz v) * (m * m) / (k * k))
    by (field; exact Hn).
  rewrite <- Hsq. field. exact Hn.
Qed.

Lemma move_forward_shift (c : Camera.t) :
  camera_inv c ->
  exists c1,
    Camera.move_forward c = Some c1
    /\ Camera.position c1
       = vadd (Camera.position c)
              (vscale (vsub (Camera.target c) (Camera.position c)) (0.5 / Camera.distance c))
    /\ norm (vsub (Camera.position c1) (Camera.position c)) = 0.5
    /\ vsub (Camera.target c1) (Camera.target c)
       = vsub (Camera.position c1) (Camera.position c).
Proof.
  intros Hinv. pose proof (view_direction_nonzero c Hinv) as Hn.
  pose proof (view_direction_norm c Hinv) as Hd.
  pose proof Hinv as (_ & Hdist & _ & _ & Hms & _).
  unfold Camera.move_forward. rewrite vdiv_defined by exact Hn.
  eexists. split; [reflexivity|]. cbn [Camera.position Camera.target Camera.with_target
    Camera.with_position Camera.move_speed].
  split; [|split].
  - rewrite Hd, Hms. apply vec3_ext; simpl; field; lra.
  - replace (vsub (vadd (Camera.position c) _) (Camera.position c))
      with (vscale (mkvec3
              (vx (vsub (Camera.target c) (Camera.position c))
               / norm (vsub (Camera.target c) (Camera.position c)))
              (vy (vsub (Camera.target c) (Camera.position c))
               / norm (vsub (Camera.target c) (Camera.position c)))
              (vz (vsub (Camera.target c) (Camera.position c))
               / norm (vsub (Camera.target c) (Camera.position c))))
              (Camera.move_speed c))
      by (apply vec3_ext; simpl; ring).
    rewrite unit_step_norm; lra.
  - apply vec3_ext; simpl; ring.
Qed.

Lemma move_backward_shift (c : Camera.t) :
  camera_inv c ->
  exists c1,
    Camera.move_backward c = Some c1
    /\ Camera.position c1
       = vsub (Camera.position c)
              (vscale (vsub (Camera.target c) (Camera.position c)) (0.5 / Camera.distance c))
    /\ norm (vsub (Camera.position c) (Camera.position c1)) = 0.5
    /\ vsub (Camera.target c1) (Camera.target c)
       = vsub (Camera.position c1) (Camera.position c).
Proof.
  intros Hinv. pose proof (view_direction_nonzero c Hinv) as Hn.
  pose proof (view_direction_norm c Hinv) as Hd.
  pose proof Hinv as (_ & Hdist & _ & _ & Hms & _).
  unfold Camera.move_backward. rewrite vdiv_defined by exact Hn.
  eexists. split; [reflexivity|]. cbn [Camera.position Camera.target Camera.with_target
    Camera.with_position Camera.move_speed].
  split; [|split].
  - rewrite Hd, Hms. apply vec3_ext; simpl; field; lra.
  - replace (vsub (Camera.position c) (vsub (Camera.position c) _))
      with (vscale (mkvec3
              (vx (vsub (Camera.target c) (Camera.position c))
               / norm (vsub (Camera.target c) (Camera.position c)))
              (vy (vsub (Camera.target c) (Camera.position c))
               / norm (vsub (Camera.target c) (Camera.position c)))
              (vz (vsub (Camera.target c) (Camera.position c))
               / norm (vsub (Camera.target c) (Camera.position c))))
              (Camera.move_speed c))
      by (apply vec3_ext; simpl; ring).
    rewrite unit_step_norm; lra.
  - apply vec3_ext; simpl; ring.
Qed.

Lemma move_sideways_shift (c : Camera.t) :
  camera_inv c ->
  exists cl cr,
    Camera.move_left c = Some cl /\ Camera.move_right c = Some cr
    /\ norm (vsub (Camera.position c) (Camera.position cl)) = 0.5
    /\ norm (vsub (Camera.position cr) (Camera.position c)) = 0.5
    /\ vy (Camera.position cl) = vy (Camera.position c)
    /\ vy (Camera.position cr) = vy (Camera.position c)
    /\ vy (Camera.target cl) = vy (Camera.target c)
    /\ vy (Camera.target cr) = vy (Camera.target c).
Proof.
  intros Hinv. pose proof (right_direction_nonzero c Hinv) as Hn.
  pose proof Hinv as (_ & _ & _ & Hup & Hms & _).
  unfold Camera.move_left, Camera.move_right. rewrite vdiv_defined by exact Hn.
  set (r := cross (vsub (Camera.target c) (Camera.position c)) (Camera.up c)) in *.
  assert (Hry : vy r = 0) by (unfold r; rewrite Hup; simpl; ring).
  eexists _, _. split; [reflexivity|]. split; [reflexivity|].
  cbn [Camera.position Camera.target Camera.with_target Camera.with_position
    Camera.move_speed].
  refine (conj _ (conj _ (conj _ (conj _ (conj _ _))))).
  - replace (vsub (Camera.position c) (vsub (Camera.position c) _))
      with (vscale (mkvec3 (vx r / norm r) (vy r / norm r) (vz r / norm r))
              (Camera.move_speed c))
      by (apply vec3_ext; simpl; ring).
    rewrite unit_step_norm; lra.
  - replace (vsub (vadd (Camera.position c) _) (Camera.position c))
      with (vscale (mkvec3 (vx r / norm r) (vy r / norm r) (vz r / norm r))
              (Camera.move_speed c))
      by (apply vec3_ext; simpl; ring).
    rewrite unit_step_norm; lra.
  - cbn [vy vsub vadd vscale]. rewrite Hry. unfold Rdiv. ring.
  - cbn [vy vsub vadd vscale]. rewrite Hry. unfold Rdiv. ring.
  - cbn [vy vsub vadd vscale]. rewrite Hry. unfold Rdiv. ring.
  - cbn [vy vsub vadd vscale]. rewrite Hry. unfold Rdiv. ring.
Qed.

(** X8. What a move does.  After any sequence of calls, [move_forward]
    shifts the eye by [0.5 / distance] of the vector from eye to target and
    [move_backward] by the opposite; [move_left] and [move_right] shift it by
    a vector of length 0.5 and leave the heights of eye and target as they
    were; every move shifts the target by the same vector as the eye. *)
Theorem moves_shift_by_move_speed (ops : list Camera.call) :
  exists c cf cb cl cr,
    Camera.session ops = Some c
    /\ Camera.move_forward c = Some cf /\ Camera.move_backward c = Some cb
    /\ Camera.move_left c = Some cl /\ Camera.move_right c = Some cr
    /\ Camera.position cf
       = vadd (Camera.position c)
              (vscale (vsub (Camera.target c) (Camera.position c)) (0.5 / Camera.distance c))
    /\ Camera.position cb
       = vsub (Camera.position c)
              (vscale (vsub (Camera.target c) (Camera.position c)) (0.5 / Camera.distance c))
    /\ norm (vsub (Camera.position cf) (Camera.position c)) = 0.5
    /\ norm (vsub (Camera.position c) (Camera.position cb)) = 0.5
    /\ norm (vsub (Camera.position c) (Camera.position cl)) = 0.5
    /\ norm (vsub (Camera.position cr) (Camera.position c)) = 0.5
    /\ vy (Camera.position cl) = vy (Camera.position c)
    /\ vy (Camera.position cr) = vy (Camera.position c)
    /\ vy (Camera.target cl) = vy (Camera.target c)
    /\ vy (Camera.target cr) = vy (Camera.target c)
    /\ vsub (Camera.target cf) (Camera.target c) = vsub (Camera.position cf) (Camera.position c)
    /\ vsub (Camera.target cb) (Camera.target c) = vsub (Camera.position cb) (Camera.position c).
Proof.
  destruct (session_inv ops) as (c & Hrun & Hinv).
  destruct (move_forward_shift c Hinv) as (cf & Hf & Hfp & Hfn & Hft).
  destruct (move_backward_shift c Hinv) as (cb & Hb & Hbp & Hbn & Hbt).
  destruct (move_sideways_shift c Hinv)
    as (cl & cr & Hl & Hr & Hln & Hrn & Hly & Hry & Hlt & Hrt).
  exists c, cf, cb, cl, cr. auto 20.
Qed.

(** *** Planets: the angles after [n] updates *)

Lemma update_n_rotation_speed (n : nat) :
  forall p dt, Planet.rotation_speed (Planet.update_n n p dt) = Planet.rotation_speed p.
Proof.
  induction n as [|n IH]; intros p dt; simpl; [reflexivity|].
  rewrite IH. reflexivity.
Qed.

(** Each angle of a planet goes its own way: [n] updates apply [advance]
    [n] times to it, with the planet's own speed. *)
Lemma update_n_angles (n : nat) (p : Planet.t) (dt : R) :
  Planet.orbit_angle (Planet.update_n n p dt)
  = Nat.iter n (fun a => Planet.advance a (Planet.orbit_speed p) dt) (Planet.orbit_angle p)
  /\ Planet.rotation_angle (Planet.update_n n p dt)
     = Nat.iter n (fun a => Planet.advance a (Planet.rotation_speed p) dt)
         (Planet.rotation_angle p).
Proof.
  induction n as [|n [IHo IHr]]; [split; reflexivity|].
  rewrite update_n_last. cbn [Planet.update Planet.orbit_angle Planet.rotation_angle Nat.iter].
  rewrite update_n_orbit_speed, update_n_rotation_speed, IHo, IHr. split; reflexivity.
Qed.

Lemma advance_iter_wraps (s a : R) (n : nat) :
  0 <= s <= 360 -> 0 <= a < 360 ->
  exists k : nat,
    (k <= n)%nat
    /\ Nat.iter n (fun x => Planet.advance x s 1.0) a = a + s * INR n - 360 * INR k
    /\ 0 <= Nat.iter n (fun x => Planet.advance x s 1.0) a < 360.
Proof.
  intros Hs Ha. induction n as [|n (k & Hk & Heq & Hin)].
  - exists 0%nat. simpl. split; [lia|]. split; lra.
  - rewrite Nat.iter_succ. set (x := Nat.iter n (fun x => Planet.advance x s 1.0) a) in *.
    rewrite S_INR. unfold Planet.advance.
    destruct (Rle_dec 360 (x + s * 1.0)) as [Hwrap|Hno].
    + exists (S k). rewrite S_INR. split; [lia|]. split; lra.
    + exists k. split; [lia|]. split; lra.
Qed.

Lemma advance_iter_backwards (s a : R) (n : nat) :
  s <= 0 -> a < 360 ->
  Nat.iter n (fun x => Planet.advance x s 1.0) a = a + s * INR n.
Proof.
  intros Hs Ha. induction n as [|n IH].
  - simpl. lra.
  - rewrite Nat.iter_succ, IH, S_INR. pose proof (pos_INR n) as Hn.
    unfold Planet.advance.
    destruct (Rle_dec 360 (a + s * INR n + s * 1.0)) as [Hwrap|Hno]; [nra|lra].
Qed.

(** X9. With a speed between 0 and 360 degrees per step, [n] updates of one
    time unit take an angle [a] in [[0, 360)] to [a + speed * n] less a
    whole number [k <= n] of full turns, and the result is in [[0, 360)]:
    the angle is [a + speed * n] modulo 360.  This holds for the orbit angle
    and for the spin angle, each with its own speed. *)
Theorem update_n_wraps_modulo_360 (n : nat) (p : Planet.t) :
  (0 <= Planet.orbit_speed p <= 360 -> 0 <= Planet.orbit_angle p < 360 ->
   exists k : nat,
     (k <= n)%nat
     /\ Planet.orbit_angle (Planet.update_n n p 1.0)
        = Planet.orbit_angle p + Planet.orbit_speed p * INR n - 360 * INR k
     /\ 0 <= Planet.orbit_angle (Planet.update_n n p 1.0) < 360)
  /\ (0 <= Planet.rotation_speed p <= 360 -> 0 <= Planet.rotation_angle p < 360 ->
      exists k : nat,
        (k <= n)%nat
        /\ Planet.rotation_angle (Planet.update_n n p 1.0)
           = Planet.rotation_angle p + Planet.rotation_speed p * INR n - 360 * INR k
        /\ 0 <= Planet.rotation_angle (Planet.update_n n p 1.0) < 360).
Proof.
  destruct (update_n_angles n p 1.0) as [Ho Hr]. rewrite Ho, Hr.
  split; apply advance_iter_wraps.
Qed.

Lemma update_n_wraps_modulo_360_mercury :
  exists k : nat,
    (k <= 100)%nat
    /\ Planet.orbit_angle (Planet.update_n 100 mercury 1.0)
       = Planet.orbit_angle mercury + Planet.orbit_speed mercury * INR 100 - 360 * INR k
    /\ 0 <= Planet.orbit_angle (Planet.update_n 100 mercury 1.0) < 360.
Proof.
  apply (proj1 (update_n_wraps_modulo_360 100 mercury)); simpl; lra.
Defined.

(** X10. With a speed that is negative (or zero), the wrap of [update] never
    fires: [n] updates of one time unit take an angle [a < 360] to exactly
    [a + speed * n], which is below every bound for [n] large enough.  This
    holds for the orbit angle and for the spin angle. *)
Theorem update_n_backwards_never_wraps (n : nat) (p : Planet.t) :
  (Planet.orbit_speed p <= 0 -> Planet.orbit_angle p < 360 ->
   Planet.orbit_angle (Planet.update_n n p 1.0)
   = Planet.orbit_angle p + Planet.orbit_speed p * INR n)
  /\ (Planet.rotation_speed p <= 0 -> Planet.rotation_angle p < 360 ->
      Planet.rotation_angle (Planet.update_n n p 1.0)
      = Planet.rotation_angle p + Planet.rotation_speed p * INR n).
Proof.
  destruct (update_n_angles n p 1.0) as [Ho Hr]. rewrite Ho, Hr.
  split; apply advance_iter_backwards.
Qed.

Lemma update_n_backwards_never_wraps_venus :
  Planet.rotation_angle (Planet.update_n 360 venus 1.0)
  = Planet.rotation_angle venus + Planet.rotation_speed venus * INR 360.
Proof.
  apply (proj2 (update_n_backwards_never_wraps 360 venus)); simpl; lra.
Defined.

(** X11. Wherever a planet is on its orbit, and after any number of updates
    with any time step, [get_position] is a point of the plane [y = 0] at
    the distance [|distance|] from the origin. *)
Theorem get_position_is_on_the_orbit (p : Planet.t) (n : nat) (dt : R) :
  snd (fst (Planet.get_position (Planet.update_n n p dt))) = 0
  /\ sqrt (fst (fst (Planet.get_position (Planet.update_n n p dt)))
           * fst (fst (Planet.get_position (Planet.update_n n p dt)))
           + snd (Planet.get_position (Planet.update_n n p dt))
             * snd (Planet.get_position (Planet.update_n n p dt)))
     = Rabs (Planet.distance p).
Proof.
  unfold Planet.get_position. cbn [fst snd]. rewrite update_n_distance.
  split; [lra|].
  set (a := Planet.orbit_angle (Planet.update_n n p dt) * PI / 180.0).
  pose proof (sin_cos_squares a) as Ha.
  replace (Planet.distance p * cos a * (Planet.distance p * cos a)
           + Planet.distance p * sin a * (Planet.distance p * sin a))
    with (Rsqr (Planet.distance p) * (sin a * sin a + cos a * cos a))
    by (unfold Rsqr; ring).
  rewrite Ha, Rmult_1_r. apply sqrt_Rsqr_abs.
Qed.

(** *** The texture table: lookups after a load *)

Section TextureLookups.
Context `{Externals}.

Lemma load_texture_other (name path other : string) (st : Renderer.state) :
  other <> name ->
  Renderer.textures (fst (snd (Renderer.load_texture name path st))) !! other
  = Renderer.textures (fst st) !! other.
Proof.
  intros Hne.
  destruct (load_texture_returns name path st) as (v & st' & Hload & Hcases).
  rewrite Hload. simpl.
  destruct (Renderer.textures (fst st) !! name) as [h'|].
  - destruct Hcases as [_ ->]. reflexivity.
  - destruct (Renderer.load_from_file name path st) as [[h1|e] st1].
    + destruct Hcases as (_ & _ & ->). apply lookup_insert_ne. congruence.
    + destruct Hcases as [_ ->]. reflexivity.
Qed.

Lemma load_texture_then_get (name path : string) (st : Renderer.state) :
  exists v st',
    Renderer.load_texture name path st = (Returned v, st')
    /\ Renderer.get_texture (fst st') name = v.
Proof.
  destruct (load_texture_returns name path st) as (v & st' & Hload & Hcases).
  exists v, st'. split; [exact Hload|]. unfold Renderer.get_texture.
  destruct (Renderer.textures (fst st) !! name) as [h|] eqn:Hlook.
  - destruct Hcases as [-> ->]. rewrite Hlook. reflexivity.
  - destruct (Renderer.load_from_file name path st) as [[h1|e] st1].
    + destruct Hcases as (-> & _ & ->). rewrite lookup_insert_eq. reflexivity.
    + destruct Hcases as [-> ->]. rewrite Hlook. reflexivity.
Qed.

(** X12. [get_texture] agrees with [load_texture]: whatever the table, the
    path and the behaviour of PIL and OpenGL, after [load_texture name path]
    has returned [v], [get_texture name] returns [v] too (the stored handle,
    or -1 after a failed load). *)
Theorem get_texture_agrees_with_load_texture (name path : string) (st : Renderer.state) :
  exists v st',
    Renderer.load_texture name path st = (Returned v, st')
    /\ Renderer.get_texture (fst st') name = v.
Proof. apply load_texture_then_get. Qed.

(** X13. [load_texture] touches no other name: for every name other than
    the one loaded, [get_texture] returns after the call what it returned
    before, whether the load hit the table, succeeded or failed.  The same
    holds for a sequence of loads none of which has that name. *)
Theorem load_texture_touches_one_name (name path other : string) (st : Renderer.state) :
  other <> name ->
  Renderer.get_texture (fst (snd (Renderer.load_texture name path st))) other
  = Renderer.get_texture (fst st) other
  /\ forall calls,
       ~ In other (map fst calls) ->
       Renderer.get_texture (fst (Renderer.load_textures calls st)) other
       = Renderer.get_texture (fst st) other.
Proof.
  intros Hne. split.
  - unfold Renderer.get_texture. rewrite load_texture_other by exact Hne. reflexivity.
  - intros calls. revert st. induction calls as [|[n p] calls IH]; intros st Hnot; simpl.
    + reflexivity.
    + simpl in Hnot. rewrite IH by tauto.
      unfold Renderer.get_texture. rewrite load_texture_other; [reflexivity|].
      intros ->. tauto.
Qed.

End TextureLookups.

Lemma load_texture_touches_one_name_earth :
  "earth" <> "mars"
  /\ Renderer.get_texture
       (fst (snd (@Renderer.load_texture recorded_world "mars" "textures/mars.png"
                    (empty_renderer, [])))) "earth"
     = Renderer.get_texture empty_renderer "earth".
Proof.
  assert (Hne : "earth" <> "mars") by discriminate.
  split; [exact Hne|].
  apply (@load_texture_touches_one_name recorded_world "mars" "textures/mars.png" "earth"
           (empty_renderer, []) Hne).
Defined.

(** *** Start-up: the planets of [_create_planets] *)

Section CreatePlanets.
Context `{Externals} `{NumpyRandom}.


End CreatePlanets.


(** *** What a frame draws *)

Lemma gl_run_app (a b : list GLCall) :
  forall s, gl_run s (a ++ b) = s' ← gl_run s a; gl_run s' b.
Proof.
  induction a as [|c a IH]; intros s; simpl; [reflexivity|].
  destruct (gl_exec s c) as [s1|]; simpl; [apply IH|reflexivity].
Qed.

Lemma gl_run_vertices (cmds : list GLCommand) (s : GLState) :
  Forall is_vertex cmds -> in_primitive s = true ->
  gl_run s (map draw_call cmds) = Some s.
Proof.
  intros Hall Hs. induction Hall as [|c cmds Hc _ IH]; simpl; [reflexivity|].
  destruct c; try contradiction. simpl. rewrite Hs. simpl. exact IH.
Qed.

Lemma star_vertices_are_vertices `{NumpyRandom} (n : nat) (d : R) :
  forall s, exists cmds s',
    Simulator.star_vertices n d s = (Returned cmds, s') /\ Forall is_vertex cmds.
Proof.
  induction n as [|n IH]; intros s; simpl.
  - exists [], s. split; [reflexivity|constructor].
  - unfold mbind, M_bind, np_random_uniform.
    destruct (uniform 0 (2 * PI) s) as [theta s1].
    destruct (uniform 0 PI s1) as [phi s2].
    destruct (IH s2) as (cmds & s3 & Hrest & Hall).
    rewrite Hrest. eexists _, _. split; [reflexivity|].
    constructor; [exact I|exact Hall].
Qed.

Lemma orbit_vertices_are_vertices (p : Planet.t) (l : list nat) :
  Forall is_vertex (map (Planet.orbit_vertex p 128) l).
Proof.
  induction l as [|i l IH]; [constructor|].
  cbn [map]. constructor; [exact I|exact IH].
Qed.

Lemma exec_draw (p : Planet.t) (d : nat) (l t : bool) (b : Z) (dr : list Drawn) :
  gl_run (mkGLState d false l t b dr) (map draw_call (Planet.draw p))
  = Some (mkGLState d false l false
            (if Z_ge_dec (Planet.texture_id p) 0 then Planet.texture_id p else b)
            (dr ++ [Sphere (Planet.radius p) l (texture_of p)])).
Proof.
  unfold Planet.draw, Planet.get_position, texture_of.
  destruct (Z_ge_dec (Planet.texture_id p) 0); reflexivity.
Qed.

Lemma exec_orbit_line (p : Planet.t) (d : nat) (l t : bool) (b : Z) (dr : list Drawn) :
  gl_run (mkGLState d false l t b dr) (map draw_call (Planet.draw_orbit_line p))
  = Some (mkGLState d false true t b (dr ++ [Primitive GL_LINE_LOOP false])).
Proof.
  unfold Planet.draw_orbit_line. rewrite !map_app, gl_run_app.
  cbn [map gl_run gl_exec in_primitive mbind option_bind set_capability matrix_depth
    lighting texturing bound_texture drawn].
  rewrite gl_run_app, gl_run_vertices by (apply orbit_vertices_are_vertices || reflexivity).
  reflexivity.
Qed.

Lemma exec_planets (planets : list Planet.t) :
  forall (d : nat) (l : bool) (b : Z) (dr : list Drawn),
    exists b',
      gl_run (mkGLState d false l false b dr)
             (flat_map (fun planet => map draw_call (Planet.draw planet)) planets)
      = Some (mkGLState d false l false b'
                (dr ++ map (fun p => Sphere (Planet.radius p) l (texture_of p)) planets)).
Proof.
  induction planets as [|p planets IH]; intros d l b dr.
  - exists b. simpl. rewrite app_nil_r. reflexivity.
  - cbn [flat_map]. rewrite gl_run_app, exec_draw. cbn [mbind option_bind].
    destruct (IH d l (if Z_ge_dec (Planet.texture_id p) 0 then Planet.texture_id p else b)
                (dr ++ [Sphere (Planet.radius p) l (texture_of p)])) as (b' & Hrest).
    exists b'. rewrite Hrest, <- app_assoc. reflexivity.
Qed.

Lemma exec_orbit_lines (planets : list Planet.t) :
  forall (d : nat) (t : bool) (b : Z) (dr : list Drawn),
    gl_run (mkGLState d false true t b dr)
           (flat_map (fun planet => map draw_call (Planet.draw_orbit_line planet)) planets)
    = Some (mkGLState d false true t b
              (dr ++ map (fun _ => Primitive GL_LINE_LOOP false) planets)).
Proof.
  induction planets as [|p planets IH]; intros d t b dr.
  - simpl. rewrite app_nil_r. reflexivity.
  - cbn [flat_map]. rewrite gl_run_app, exec_orbit_line. cbn [mbind option_bind].
    rewrite IH, <- app_assoc. reflexivity.
Qed.

Lemma exec_starfield (stars : list GLCommand) (d : nat) (l t : bool) (b : Z)
    (dr : list Drawn) :
  Forall is_vertex stars ->
  gl_run (mkGLState d false l t b dr)
         (map draw_call
            ([glPushMatrix; glDisable GL_LIGHTING; glPointSize 1.5; glColor3f 0.8 0.8 1.0;
              glBegin GL_POINTS]
             ++ stars
             ++ [glEnd; glPointSize 1.0; glEnable GL_LIGHTING; glPopMatrix]))
  = Some (mkGLState d false true t b (dr ++ [Primitive GL_POINTS false])).
Proof.
  intros Hall. rewrite !map_app, gl_run_app.
  cbn [map gl_run gl_exec in_primitive mbind option_bind set_capability matrix_depth
    lighting texturing bound_texture drawn].
  rewrite gl_run_app, gl_run_vertices by (exact Hall || reflexivity).
  reflexivity.
Qed.

Lemma render_scene_executes `{NumpyRandom} (self : Simulator.t) (g : RandomState)
    (s0 : GLState) :
  in_primitive s0 = false -> texturing s0 = false ->
  exists scene g' s1,
    SolarSystemSimulator._render_scene self g = (Returned scene, g')
    /\ gl_run s0 scene = Some s1
    /\ drawn s1
       = drawn s0
         ++ [Primitive GL_POINTS false; Sphere SolarSystemSimulator.SUN_RADIUS true None]
         ++ map (fun p => Sphere (Planet.radius p) true (texture_of p)) (Simulator.planets self)
         ++ (if Simulator.show_orbits self
             then map (fun _ => Primitive GL_LINE_LOOP false) (Simulator.planets self)
             else [])
    /\ matrix_depth s1 = matrix_depth s0
    /\ in_primitive s1 = false
    /\ lighting s1 = true
    /\ texturing s1 = false.
Proof.
  intros Hprim Htex. destruct s0 as [d ip l t b dr]. simpl in Hprim, Htex. subst ip t.
  unfold SolarSystemSimulator._render_scene, Simulator._render_starfield,
    Simulator.np_random_seed, mbind, M_bind, mret, M_ret.
  destruct (star_vertices_are_vertices 500 300.0 (seed 42)) as (stars & g' & Hstars & Hall).
  rewrite Hstars.
  destruct (exec_planets (Simulator.planets self) d true b
              (dr ++ [Primitive GL_POINTS false]
                  ++ [Sphere SolarSystemSimulator.SUN_RADIUS true None]))
    as (b' & Hplanets).
  destruct (Simulator.show_orbits self).
  all: eexists _, _, _; (split; [reflexivity|]).
  all: rewrite gl_run_app; cbn [OpenGLRenderer.clear_screen gl_run gl_exec in_primitive mbind
    option_bind].
  all: rewrite gl_run_app; cbn [OpenGLRenderer.setup_modelview gl_run gl_exec in_primitive
    mbind option_bind].
  all: rewrite gl_run_app; cbn [Camera.apply_view_matrix map gl_run gl_exec in_primitive mbind
    option_bind].
  all: rewrite gl_run_app, (exec_starfield stars d l false b dr Hall); cbn [mbind option_bind].
  all: rewrite gl_run_app; cbn [OpenGLRenderer.setup_material gl_run gl_exec in_primitive
    mbind option_bind].
  all: rewrite gl_run_app; cbn [SolarSystemSimulator._render_sun gl_run gl_exec in_primitive
    mbind option_bind matrix_depth lighting texturing bound_texture drawn].
  all: rewrite gl_run_app, <- app_assoc, Hplanets; cbn [mbind option_bind].
  - rewrite exec_orbit_lines. split; [reflexivity|].
    cbn [drawn matrix_depth in_primitive lighting texturing].
    rewrite <- !app_assoc. auto.
  - cbn [gl_run]. split; [reflexivity|].
    cbn [drawn matrix_depth in_primitive lighting texturing].
    rewrite <- !app_assoc, app_nil_r. auto.
Qed.

(** X15. What a frame draws, and the state it leaves.  From an OpenGL state
    with no primitive open and texturing disabled, the calls of
    [_render_scene] run without an error, whatever the simulator and the
    generator state: the star points are drawn unlit, then the sun lit and
    untextured, then every planet lit, with its texture when its handle is
    not negative and with none otherwise, then, when orbits are shown, one
    unlit line loop per planet.  The frame pops every matrix it pushes,
    leaves no primitive open, lighting enabled and texturing disabled. *)
Theorem render_scene_draws `{NumpyRandom} (self : Simulator.t) (g : RandomState)
    (s0 : GLState) :
  in_primitive s0 = false -> texturing s0 = false ->
  exists scene g' s1,
    SolarSystemSimulator._render_scene self g = (Returned scene, g')
    /\ gl_run s0 scene = Some s1
    /\ drawn s1
       = drawn s0
         ++ [Primitive GL_POINTS false; Sphere SolarSystemSimulator.SUN_RADIUS true None]
         ++ map (fun p => Sphere (Planet.radius p) true (texture_of p)) (Simulator.planets self)
         ++ (if Simulator.show_orbits self
             then map (fun _ => Primitive GL_LINE_LOOP false) (Simulator.planets self)
             else [])
    /\ matrix_depth s1 = matrix_depth s0
    /\ in_primitive s1 = false
    /\ lighting s1 = true
    /\ texturing s1 = false.
Proof. apply render_scene_executes. Qed.

Lemma render_scene_draws_first_frame :
  exists scene g' s1,
    @SolarSystemSimulator._render_scene harmonic_random
      (Simulator.mk true false true default_camera two_planets 0 []) 0%nat
    = (Returned scene, g')
    /\ gl_run initial_gl_state scene = Some s1
    /\ matrix_depth s1 = 0%nat
    /\ texturing s1 = false.
Proof.
  destruct (@render_scene_draws harmonic_random
              (Simulator.mk true false true default_camera two_planets 0 []) 0%nat
              initial_gl_state eq_refl eq_refl)
    as (scene & g' & s1 & Hscene & Hrun & _ & Hdepth & _ & _ & Htex).
  exists scene, g', s1. auto.
Defined.

(** *** The loop of [run] *)

Lemma when_inv (b : bool) (f : Camera.t -> Camera.t) (c : Camera.t) :
  (forall c, camera_inv c -> camera_inv (f c)) ->
  camera_inv c -> camera_inv (Simulator.when b f c).
Proof. intros Hf Hc. destruct b; simpl; auto. Qed.

Lemma handle_held_inv (inp : Simulator.Input) (c : Camera.t) :
  camera_inv c -> camera_inv (Simulator.handle_held inp c).
Proof.
  intros Hc. unfold Simulator.handle_held.
  assert (Hkeys : camera_inv
            (Simulator.when (Simulator.K_MINUS inp) Camera.zoom_out
            (Simulator.when (Simulator.K_EQUALS inp || Simulator.K_PLUS inp) Camera.zoom_in
            (Simulator.when (Simulator.K_e inp) Camera.move_down
            (Simulator.when (Simulator.K_q inp) Camera.move_up
            (Simulator.when (Simulator.K_d inp) (fun c => Camera.rotate_vertical c (-1))
            (Simulator.when (Simulator.K_a inp) (fun c => Camera.rotate_vertical c 1)
            (Simulator.when (Simulator.K_s inp) (fun c => Camera.rotate_horizontal c (-1))
            (Simulator.when (Simulator.K_w inp) (fun c => Camera.rotate_horizontal c 1)
               c))))))))).
  { repeat (apply when_inv;
            [intros c'; first [apply zoom_out_inv | apply zoom_in_inv | apply move_down_inv
                              | apply move_up_inv | apply rotate_vertical_inv
                              | apply rotate_horizontal_inv]|]).
    exact Hc. }
  destruct (Simulator.mouse_right inp); [|exact Hkeys].
  apply rotate_vertical_inv, rotate_horizontal_inv, Hkeys.
Qed.

Lemma handle_event_inv (s : Simulator.t) (e : Simulator.Event) :
  camera_inv (Simulator.camera s) ->
  exists s',
    Simulator.handle_event s e = Some s'
    /\ camera_inv (Simulator.camera s')
    /\ Simulator.frame_count s' = Simulator.frame_count s
    /\ (Simulator.running s = false -> Simulator.running s' = false)
    /\ (is_quit e = true -> Simulator.running s' = false)
    /\ (is_quit e = false -> Simulator.running s' = Simulator.running s).
Proof.
  intros Hc.
  assert (Hzi := zoom_in_inv _ Hc). assert (Hzo := zoom_out_inv _ Hc).
  assert (Hdone : forall s',
             camera_inv (Simulator.camera s') ->
             Simulator.frame_count s' = Simulator.frame_count s ->
             Simulator.running s' = (Simulator.running s && negb (is_quit e))%bool ->
             camera_inv (Simulator.camera s')
             /\ Simulator.frame_count s' = Simulator.frame_count s
             /\ (Simulator.running s = false -> Simulator.running s' = false)
             /\ (is_quit e = true -> Simulator.running s' = false)
             /\ (is_quit e = false -> Simulator.running s' = Simulator.running s)).
  { intros s' Hc' Hfc Hr. split; [exact Hc'|]. split; [exact Hfc|]. rewrite Hr.
    destruct (Simulator.running s), (is_quit e); simpl; auto. }
  destruct e as [|k|b|]; simpl.
  - eexists; split; [reflexivity|]. apply Hdone; simpl; auto using andb_false_r.
  - destruct k; simpl;
      try (eexists; split; [reflexivity|];
           apply Hdone; simpl; auto using andb_false_r, andb_true_r; fail).
    destruct (reset_view_inv _ Hc) as (c' & Hreset & Hc'). rewrite Hreset. simpl.
    eexists; split; [reflexivity|]. apply Hdone; simpl; auto using andb_true_r.
  - destruct (Z.eq_dec b 4%Z); [|destruct (Z.eq_dec b 5%Z)];
      (eexists; split; [reflexivity|]); apply Hdone; simpl; auto using andb_true_r.
  - eexists; split; [reflexivity|]. apply Hdone; simpl; auto using andb_true_r.
Qed.

Lemma handle_events_inv (evs : list Simulator.Event) :
  forall s,
    camera_inv (Simulator.camera s) ->
    exists s',
      Simulator.handle_events s evs = Some s'
      /\ camera_inv (Simulator.camera s')
      /\ Simulator.frame_count s' = Simulator.frame_count s
      /\ (Simulator.running s = false -> Simulator.running s' = false)
      /\ (existsb is_quit evs = true -> Simulator.running s' = false)
      /\ (existsb is_quit evs = false -> Simulator.running s' = Simulator.running s).
Proof.
  induction evs as [|e evs IH]; intros s Hc; simpl.
  - exists s. split; [reflexivity|]. split; [exact Hc|]. split; [reflexivity|].
    split; [auto|]. split; [discriminate|reflexivity].
  - destruct (handle_event_inv s e Hc) as (s1 & He & Hc1 & Hfc1 & Hoff1 & Hquit1 & Hkeep1).
    rewrite He. simpl.
    destruct (IH s1 Hc1) as (s' & Hevs & Hc' & Hfc' & Hoff' & Hquit' & Hkeep').
    exists s'. split; [exact Hevs|]. split; [exact Hc'|]. split; [congruence|].
    split; [auto|]. destruct (is_quit e); simpl.
    + split; [auto|discriminate].
    + split; [auto|]. intros Hno. rewrite Hkeep', Hkeep1; auto.
Qed.

Lemma handle_input_inv (s : Simulator.t) (inp : Simulator.Input) :
  camera_inv (Simulator.camera s) ->
  exists s',
    Simulator._handle_input s inp = Some s'
    /\ camera_inv (Simulator.camera s')
    /\ Simulator.frame_count s' = Simulator.frame_count s
    /\ Simulator.planets s' = Simulator.planets s
    /\ (Simulator.running s = false -> Simulator.running s' = false)
    /\ (existsb is_quit (Simulator.events inp) = true -> Simulator.running s' = false)
    /\ (existsb is_quit (Simulator.events inp) = false ->
        Simulator.running s' = Simulator.running s).
Proof.
  intros Hc. unfold Simulator._handle_input.
  destruct (handle_events_inv (Simulator.events inp)
              (Simulator.with_camera s (Simulator.handle_held inp (Simulator.camera s))))
    as (s' & Hevs & Hc' & Hfc & Hoff & Hquit & Hkeep).
  { simpl. apply handle_held_inv, Hc. }
  exists s'. split; [exact Hevs|]. split; [exact Hc'|]. split; [exact Hfc|].
  split; [|auto]. rewrite (handle_events_planets _ _ _ Hevs). reflexivity.
Qed.

Lemma render_scene_returns `{NumpyRandom} (s : Simulator.t) (g : RandomState) :
  exists scene g', SolarSystemSimulator._render_scene s g = (Returned scene, g').
Proof.
  unfold SolarSystemSimulator._render_scene, Simulator._render_starfield,
    Simulator.np_random_seed, mbind, M_bind, mret, M_ret.
  destruct (star_vertices_returns 500 300.0 (seed 42)) as (stars & g' & Hstars & _).
  rewrite Hstars. eauto.
Qed.

Lemma display_stats_fields (s : Simulator.t) (fps : string) :
  Simulator.running (SolarSystemSimulator._display_stats s fps) = Simulator.running s
  /\ Simulator.paused (SolarSystemSimulator._display_stats s fps) = Simulator.paused s
  /\ Simulator.camera (SolarSystemSimulator._display_stats s fps) = Simulator.camera s
  /\ Simulator.planets (SolarSystemSimulator._display_stats s fps) = Simulator.planets s
  /\ Simulator.frame_count (SolarSystemSimulator._display_stats s fps)
     = (Simulator.frame_count s + 1)%Z.
Proof.
  unfold SolarSystemSimulator._display_stats. cbn [Simulator.frame_count].
  destruct (Z.eq_dec _ 0%Z); [destruct (Z.eq_dec _ 0%Z)|]; simpl; auto.
Qed.

Lemma update_simulation_fields (s : Simulator.t) :
  Simulator.running (Simulator._update_simulation s) = Simulator.running s
  /\ Simulator.paused (Simulator._update_simulation s) = Simulator.paused s
  /\ Simulator.camera (Simulator._update_simulation s) = Simulator.camera s
  /\ Simulator.frame_count (Simulator._update_simulation s) = Simulator.frame_count s
  /\ Simulator.planets (Simulator._update_simulation s)
     = (if Simulator.paused s then Simulator.planets s
        else map (fun p => Planet.update p 1.0) (Simulator.planets s)).
Proof.
  unfold Simulator._update_simulation. destruct (Simulator.paused s) eqn:Hp; simpl;
    rewrite ?Hp; auto 10.
Qed.

Lemma run_loop_returns `{NumpyRandom} (ticks : list SolarSystemSimulator.Tick) :
  forall s frames g,
    camera_inv (Simulator.camera s) ->
    exists s' rendered g',
      SolarSystemSimulator.run_loop s ticks frames g = Some (s', frames ++ rendered, g')
      /\ camera_inv (Simulator.camera s')
      /\ (length rendered <= length ticks)%nat
      /\ Simulator.frame_count s' = (Simulator.frame_count s + Z.of_nat (length rendered))%Z
      /\ (Simulator.running s' = true -> length rendered = length ticks)
      /\ Forall rendered_scene rendered.
Proof.
  induction ticks as [|tick ticks IH]; intros s frames g Hc.
  - exists s, [], g. simpl. rewrite app_nil_r. split; [reflexivity|].
    split; [exact Hc|]. split; [lia|]. split; [lia|]. split; [auto|constructor].
  - cbn [SolarSystemSimulator.run_loop]. destruct (Simulator.running s) eqn:Hrun.
    + destruct (handle_input_inv s (SolarSystemSimulator.input tick) Hc)
        as (s1 & Hin & Hc1 & Hfc1 & _).
      rewrite Hin. cbn [mbind option_bind].
      destruct (update_simulation_fields s1) as (_ & _ & Hcam2 & Hfc2 & _).
      destruct (render_scene_returns (Simulator._update_simulation s1) g)
        as (scene & g1 & Hscene).
      rewrite Hscene.
      destruct (display_stats_fields (Simulator._update_simulation s1)
                  (SolarSystemSimulator.fps tick)) as (_ & _ & Hcam3 & _ & Hfc3).
      destruct (IH (SolarSystemSimulator._display_stats (Simulator._update_simulation s1)
                      (SolarSystemSimulator.fps tick)) (frames ++ [scene]) g1)
        as (s' & rendered & g' & Hloop & Hc' & Hlen & Hfc' & Hall & Hscenes).
      { rewrite Hcam3, Hcam2. exact Hc1. }
      exists s', (scene :: rendered), g'. rewrite Hloop, <- app_assoc.
      split; [reflexivity|]. split; [exact Hc'|]. simpl length.
      split; [lia|]. split; [lia|]. split.
      * intros Hr. rewrite (Hall Hr). reflexivity.
      * constructor; [|exact Hscenes]. eexists _, _, _. exact Hscene.
    + exists s, [], g. rewrite app_nil_r. split; [reflexivity|].
      split; [exact Hc|]. simpl. split; [lia|]. split; [lia|].
      split; [intros Hr; congruence|constructor].
Qed.

Lemma scenes_run `{NumpyRandom} (scenes : list (list GLCall)) :
  Forall rendered_scene scenes ->
  forall s0,
    in_primitive s0 = false -> texturing s0 = false ->
    exists s1,
      gl_run s0 (concat scenes) = Some s1
      /\ matrix_depth s1 = matrix_depth s0
      /\ in_primitive s1 = false
      /\ texturing s1 = false.
Proof.
  induction 1 as [|scene scenes (self & g & g' & Hscene) _ IH]; intros s0 Hprim Htex.
  - exists s0. simpl. auto.
  - destruct (render_scene_executes self g s0 Hprim Htex)
      as (scene' & g'' & s1 & Hscene' & Hrun & _ & Hdepth & Hprim1 & _ & Htex1).
    rewrite Hscene in Hscene'. injection Hscene' as <- <-.
    destruct (IH s1 Hprim1 Htex1) as (s2 & Hrest & Hdepth2 & Hprim2 & Htex2).
    exists s2. cbn [concat]. rewrite gl_run_app, Hrun. cbn [mbind option_bind].
    split; [exact Hrest|]. split; [congruence|]. auto.
Qed.

(** X16. The loop cannot fail.  Started with the camera [__init__] builds,
    whatever the flags, the planets, the inputs of the rounds and the state
    of the generator, the loop returns; it renders at most one frame per
    round, exactly one per round if it is still running at the end, and
    counts each frame once.  All the frames together, run from the initial
    OpenGL state, raise no OpenGL error, pop every matrix they push, and
    leave no primitive open and texturing disabled. *)
Theorem run_loop_never_fails `{NumpyRandom}
    (running paused show_orbits : bool) (planets : list Planet.t) (frame_count : Z)
    (stdout : list string) (ticks : list SolarSystemSimulator.Tick) (g : RandomState) :
  exists s' rendered g' gl,
    SolarSystemSimulator.run_loop
      (Simulator.mk running paused show_orbits default_camera planets frame_count stdout)
      ticks [] g
    = Some (s', rendered, g')
    /\ (length rendered <= length ticks)%nat
    /\ (Simulator.running s' = true -> length rendered = length ticks)
    /\ Simulator.frame_count s' = (frame_count + Z.of_nat (length rendered))%Z
    /\ gl_run initial_gl_state (concat rendered) = Some gl
    /\ matrix_depth gl = 0%nat /\ in_primitive gl = false /\ texturing gl = false.
Proof.
  destruct (run_loop_returns ticks
              (Simulator.mk running paused show_orbits default_camera planets frame_count
                 stdout) [] g)
    as (s' & rendered & g' & Hloop & _ & Hlen & Hfc & Hall & Hscenes).
  { simpl. apply default_camera_inv; reflexivity || lra || (f_equal; lra). }
  destruct (scenes_run rendered Hscenes initial_gl_state eq_refl eq_refl)
    as (gl & Hgl & Hdepth & Hprim & Htex).
  exists s', rendered, g', gl. simpl in Hloop, Hfc. auto 10.
Qed.

Lemma quit_frame `{NumpyRandom} (s : Simulator.t) (tick : SolarSystemSimulator.Tick)
    (rest : list SolarSystemSimulator.Tick) (frames : list (list GLCall)) (g : RandomState) :
  camera_inv (Simulator.camera s) ->
  Simulator.running s = true ->
  existsb is_quit (Simulator.events (SolarSystemSimulator.input tick)) = true ->
  exists s' scene g',
    SolarSystemSimulator.run_loop s (tick :: rest) frames g = Some (s', frames ++ [scene], g')
    /\ Simulator.running s' = false
    /\ Simulator.frame_count s' = (Simulator.frame_count s + 1)%Z
    /\ Simulator.planets s'
       = (if Simulator.paused s' then Simulator.planets s
          else map (fun p => Planet.update p 1.0) (Simulator.planets s)).
Proof.
  intros Hc Hrun Hquit. cbn [SolarSystemSimulator.run_loop]. rewrite Hrun.
  destruct (handle_input_inv s (SolarSystemSimulator.input tick) Hc)
    as (s1 & Hin & Hc1 & Hfc1 & Hpl1 & _ & Hoff & _).
  rewrite Hin. cbn [mbind option_bind].
  destruct (update_simulation_fields s1) as (Hr2 & Hp2 & _ & Hfc2 & Hpl2).
  destruct (render_scene_returns (Simulator._update_simulation s1) g) as (scene & g1 & Hscene).
  rewrite Hscene.
  destruct (display_stats_fields (Simulator._update_simulation s1)
              (SolarSystemSimulator.fps tick)) as (Hr3 & Hp3 & _ & Hpl3 & Hfc3).
  set (s3 := SolarSystemSimulator._display_stats (Simulator._update_simulation s1)
               (SolarSystemSimulator.fps tick)) in *.
  assert (Hstop : Simulator.running s3 = false) by (rewrite Hr3, Hr2; auto).
  exists s3, scene, g1. split.
  - destruct rest; cbn [SolarSystemSimulator.run_loop]; [reflexivity|].
    rewrite Hstop. reflexivity.
  - split; [exact Hstop|]. split; [lia|].
    rewrite Hpl3, Hpl2, Hp3, Hp2, Hpl1. reflexivity.
Qed.

(** X17. Closing the window, or the escape key, ends the loop after the
    frame that receives it.  That round is still played in full: its other
    input is handled, the simulation is stepped (every planet is updated
    once unless the simulator is paused at that point), the frame is
    rendered and counted; none of the rounds after it is played. *)
Theorem quit_ends_the_loop_after_the_frame `{NumpyRandom}
    (paused show_orbits : bool) (planets : list Planet.t) (frame_count : Z)
    (stdout : list string) (tick : SolarSystemSimulator.Tick)
    (rest : list SolarSystemSimulator.Tick) (g : RandomState) :
  existsb is_quit (Simulator.events (SolarSystemSimulator.input tick)) = true ->
  exists s' scene g',
    SolarSystemSimulator.run_loop
      (Simulator.mk true paused show_orbits default_camera planets frame_count stdout)
      (tick :: rest) [] g
    = Some (s', [scene], g')
    /\ Simulator.running s' = false
    /\ Simulator.frame_count s' = (frame_count + 1)%Z
    /\ Simulator.planets s'
       = (if Simulator.paused s' then planets
          else map (fun p => Planet.update p 1.0) planets).
Proof.
  intros Hquit.
  apply (quit_frame
           (Simulator.mk true paused show_orbits default_camera planets frame_count stdout)
           tick rest [] g); [|reflexivity|exact Hquit].
  simpl. apply default_camera_inv; reflexivity || lra || (f_equal; lra).
Qed.

Lemma quit_ends_the_loop_with_two_planets :
  exists s' scene g',
    @SolarSystemSimulator.run_loop harmonic_random
      (Simulator.mk true false true default_camera two_planets 0 [])
      [closing_tick; idle_tick] [] 0%nat
    = Some (s', [scene], g')
    /\ Simulator.running s' = false
    /\ Simulator.frame_count s' = 1%Z.
Proof.
  destruct (@quit_ends_the_loop_after_the_frame harmonic_random false true two_planets 0 []
              closing_tick [idle_tick] 0%nat eq_refl)
    as (s' & scene & g' & Hloop & Hstop & Hfc & _).
  exists s', scene, g'. auto.
Defined.

Lemma display_stats_stdout (s : Simulator.t) (fps : string) :
  length (Simulator.stdout (SolarSystemSimulator._display_stats s fps))
  = (length (Simulator.stdout s)
     + Z.to_nat ((Simulator.frame_count s + 1) / 60 - Simulator.frame_count s / 60)%Z)%nat.
Proof.
  unfold SolarSystemSimulator._display_stats. cbn [Simulator.frame_count Simulator.paused].
  destruct (Z.eq_dec ((Simulator.frame_count s + 1) mod 10)%Z 0%Z) as [H10|H10];
    [destruct (Z.eq_dec ((Simulator.frame_count s + 1) mod 60)%Z 0%Z) as [H60|H60]|].
  - cbn [Simulator.printed Simulator.stdout]. rewrite length_app. simpl length.
    replace ((Simulator.frame_count s + 1) / 60 - Simulator.frame_count s / 60)%Z with 1%Z
      by (Z.to_euclidean_division_equations; lia).
    reflexivity.
  - cbn [Simulator.stdout].
    replace ((Simulator.frame_count s + 1) / 60 - Simulator.frame_count s / 60)%Z with 0%Z
      by (Z.to_euclidean_division_equations; lia).
    simpl. lia.
  - cbn [Simulator.stdout].
    replace ((Simulator.frame_count s + 1) / 60 - Simulator.frame_count s / 60)%Z with 0%Z
      by (Z.to_euclidean_division_equations; lia).
    simpl. lia.
Qed.

Lemma quiet_frames `{NumpyRandom} (ticks : list SolarSystemSimulator.Tick) :
  forall s frames g,
    camera_inv (Simulator.camera s) ->
    Simulator.running s = true ->
    Forall (fun t => Simulator.events (SolarSystemSimulator.input t) = []) ticks ->
    exists s' rendered g',
      SolarSystemSimulator.run_loop s ticks frames g = Some (s', frames ++ rendered, g')
      /\ length rendered = length ticks
      /\ Simulator.running s' = true
      /\ Simulator.paused s' = Simulator.paused s
      /\ Simulator.planets s'
         = (if Simulator.paused s then Simulator.planets s
            else map (fun p => Planet.update_n (length ticks) p 1.0) (Simulator.planets s))
      /\ length (Simulator.stdout s')
         = (length (Simulator.stdout s)
            + Z.to_nat ((Simulator.frame_count s + Z.of_nat (length ticks)) / 60
                        - Simulator.frame_count s / 60)%Z)%nat.
Proof.
  induction ticks as [|tick ticks IH]; intros s frames g Hc Hrun Hquiet.
  - exists s, [], g. simpl. rewrite app_nil_r, Z.add_0_r, Z.sub_diag.
    split; [reflexivity|]. split; [reflexivity|]. split; [exact Hrun|].
    split; [reflexivity|]. split; [|simpl; lia].
    destruct (Simulator.paused s); [reflexivity|].
    rewrite <- (map_id (Simulator.planets s)) at 1. reflexivity.
  - apply Forall_cons in Hquiet as [Hnone Hquiet].
    cbn [SolarSystemSimulator.run_loop]. rewrite Hrun.
    unfold Simulator._handle_input. rewrite Hnone. cbn [Simulator.handle_events mbind option_bind].
    set (s1 := Simulator.with_camera s
                 (Simulator.handle_held (SolarSystemSimulator.input tick) (Simulator.camera s))).
    destruct (update_simulation_fields s1) as (Hr2 & Hp2 & Hcam2 & Hfc2 & Hpl2).
    destruct (render_scene_returns (Simulator._update_simulation s1) g) as (scene & g1 & Hscene).
    rewrite Hscene.
    destruct (display_stats_fields (Simulator._update_simulation s1)
                (SolarSystemSimulator.fps tick)) as (Hr3 & Hp3 & Hcam3 & Hpl3 & Hfc3).
    pose proof (display_stats_stdout (Simulator._update_simulation s1)
                  (SolarSystemSimulator.fps tick)) as Hout3.
    set (s3 := SolarSystemSimulator._display_stats (Simulator._update_simulation s1)
                 (SolarSystemSimulator.fps tick)) in *.
    destruct (IH s3 (frames ++ [scene]) g1)
      as (s' & rendered & g' & Hloop & Hlen & Hrun' & Hp' & Hpl' & Hout'); [| |exact Hquiet|].
    { rewrite Hcam3, Hcam2. unfold s1. simpl. apply handle_held_inv, Hc. }
    { rewrite Hr3, Hr2. exact Hrun. }
    exists s', (scene :: rendered), g'. rewrite Hloop, <- app_assoc.
    split; [reflexivity|]. split; [simpl; lia|]. split; [exact Hrun'|].
    assert (Hp1 : Simulator.paused s1 = Simulator.paused s) by reflexivity.
    assert (Hpl1 : Simulator.planets s1 = Simulator.planets s) by reflexivity.
    assert (Hfc1 : Simulator.frame_count s1 = Simulator.frame_count s) by reflexivity.
    assert (Hout1 : Simulator.stdout s1 = Simulator.stdout s) by reflexivity.
    assert (Hout2 : Simulator.stdout (Simulator._update_simulation s1) = Simulator.stdout s).
    { unfold Simulator._update_simulation. destruct (negb (Simulator.paused s1)); exact Hout1. }
    split; [congruence|]. split.
    + rewrite Hpl', Hp3, Hp2, Hpl3, Hpl2, Hp1, Hpl1.
      destruct (Simulator.paused s); [reflexivity|].
      rewrite map_map. reflexivity.
    + rewrite Hout', Hout3, Hout2, Hfc3, Hfc2, Hfc1. cbn [length].
      rewrite Nat2Z.inj_succ.
      set (fc := Simulator.frame_count s). set (n := Z.of_nat (length ticks)).
      assert (Hn : (0 <= n)%Z) by (unfold n; lia).
      assert (H1 : (0 <= (fc + 1) / 60 - fc / 60)%Z)
        by (Z.to_euclidean_division_equations; lia).
      assert (H2 : (0 <= (fc + 1 + n) / 60 - (fc + 1) / 60)%Z)
        by (Z.to_euclidean_division_equations; lia).
      replace (fc + Z.succ n)%Z with (fc + 1 + n)%Z by lia. lia.
Qed.

(** X18. Rounds without events.  Started running with the camera [__init__]
    builds, [n] rounds in which no event arrives (keys may be held, the
    mouse may drag) render [n] frames and leave the simulator running and
    its pause flag as it was; every planet is then where [n] updates of one
    time unit take it, or where it was when the simulator is paused; and
    the status line has been printed once for every multiple of 60 the frame
    count has passed. *)
Theorem quiet_rounds_step_the_planets `{NumpyRandom}
    (paused show_orbits : bool) (planets : list Planet.t) (frame_count : Z)
    (stdout : list string) (ticks : list SolarSystemSimulator.Tick) (g : RandomState) :
  Forall (fun t => Simulator.events (SolarSystemSimulator.input t) = []) ticks ->
  exists s' rendered g',
    SolarSystemSimulator.run_loop
      (Simulator.mk true paused show_orbits default_camera planets frame_count stdout)
      ticks [] g
    = Some (s', rendered, g')
    /\ length rendered = length ticks
    /\ Simulator.running s' = true
    /\ Simulator.paused s' = paused
    /\ Simulator.planets s'
       = (if paused then planets
          else map (fun p => Planet.update_n (length ticks) p 1.0) planets)
    /\ length (Simulator.stdout s')
       = (length stdout
          + Z.to_nat ((frame_count + Z.of_nat (length ticks)) / 60 - frame_count / 60)%Z)%nat.
Proof.
  intros Hquiet.
  apply (quiet_frames ticks
           (Simulator.mk true paused show_orbits default_camera planets frame_count stdout)
           [] g); [|reflexivity|exact Hquiet].
  simpl. apply default_camera_inv; reflexivity || lra || (f_equal; lra).
Qed.

Lemma quiet_rounds_step_two_planets :
  exists s' rendered g',
    @SolarSystemSimulator.run_loop harmonic_random
      (Simulator.mk true false true default_camera two_planets 0 [])
      [idle_tick; idle_tick] [] 0%nat
    = Some (s', rendered, g')
    /\ length rendered = 2%nat
    /\ Simulator.planets s' = map (fun p => Planet.update_n 2 p 1.0) two_planets.
Proof.
  destruct (@quiet_rounds_step_the_planets harmonic_random false true two_planets 0 []
              [idle_tick; idle_tick] 0%nat)
    as (s' & rendered & g' & Hloop & Hlen & _ & _ & Hplanets & _).
  { repeat constructor. }
  exists s', rendered, g'. auto.
Defined.

(** *** The generated textures *)

Lemma int_between (a b : Z) (x : R) :
  (0 <= a)%Z -> IZR a <= x -> x <= IZR b -> (a <= TextureGenerator.int x <= b)%Z.
Proof.
  intros Ha Hlo Hhi. unfold TextureGenerator.int.
  assert (H0 : 0 <= x) by (apply IZR_le in Ha; lra).
  destruct (Rle_dec 0 x) as [_|Hn]; [|contradiction].
  split; [apply Zfloor_lub, Hlo|].
  pose proof (Zfloor_bound x) as [Hfl _].
  apply le_IZR. lra.
Qed.

Lemma mapM_all {A B} (f : A -> option B) (Q : B -> Prop) (l : list A) :
  (forall a, In a l -> exists b, f a = Some b /\ Q b) ->
  exists k, mapM f l = Some k /\ length k = length l /\ Forall Q k.
Proof.
  induction l as [|a l IH]; intros Hall.
  - exists []. repeat split. constructor.
  - destruct (Hall a (or_introl eq_refl)) as (b & Hb & Hq).
    destruct IH as (k & Hk & Hlen & Hqs); [intros a' Ha'; apply Hall; right; exact Ha'|].
    exists (b :: k). cbn [mapM]. rewrite Hb. cbn [mbind option_bind]. rewrite Hk.
    cbn [mbind option_bind mret option_ret]. split; [reflexivity|].
    split; [simpl; lia|constructor; assumption].
Qed.

Lemma in_range (size i : Z) : In i (TextureGenerator.range size) -> (0 <= i < size)%Z.
Proof.
  unfold TextureGenerator.range. intros Hin. apply in_map_iff in Hin as (n & <- & Hn).
  apply in_seq in Hn. lia.
Qed.

Lemma length_range (size : Z) : length (TextureGenerator.range size) = Z.to_nat size.
Proof. unfold TextureGenerator.range. rewrite length_map, length_seq. reflexivity. Qed.

(** An image is filled when the colour is defined at each of its pixels, and
    then every pixel has what the colours have. *)
Lemma fill_all (size : Z) (f : Z -> Z -> option TextureGenerator.pixel)
    (P : TextureGenerator.pixel -> Prop) :
  (forall x y, (0 <= x < size)%Z -> (0 <= y < size)%Z -> exists p, f x y = Some p /\ P p) ->
  exists img,
    TextureGenerator.fill size f = Some img
    /\ length img = Z.to_nat size
    /\ Forall (fun row => length row = Z.to_nat size /\ Forall P row) img.
Proof.
  intros Hf. unfold TextureGenerator.fill.
  destruct (mapM_all (fun y => mapM (fun x => f x y) (TextureGenerator.range size))
              (fun row => length row = Z.to_nat size /\ Forall P row)
              (TextureGenerator.range size)) as (img & Himg & Hlen & Hrows).
  { intros y Hy. apply in_range in Hy.
    destruct (mapM_all (fun x => f x y) P (TextureGenerator.range size))
      as (row & Hrow & Hrl & Hps).
    { intros x Hx. apply in_range in Hx. apply Hf; assumption. }
    exists row. rewrite length_range in Hrl. auto. }
  exists img. rewrite length_range in Hlen. auto.
Qed.


Ltac channel a b :=
  match goal with
  | |- (0 <= TextureGenerator.int ?e <= 255)%Z =>
      let H := fresh in
      assert (H : (a <= TextureGenerator.int e <= b)%Z)
        by (apply int_between; [lia | lra || nra | lra || nra]);
      lia
  end.



Lemma jupiter_pixel_byte (size x y : Z) :
  (0 < size)%Z ->
  exists p, TextureGenerator.jupiter_pixel size x y = Some p /\ byte_pixel p.
Proof.
  intros Hsize. unfold TextureGenerator.jupiter_pixel, div.
  assert (Hs : IZR size <> 0) by (apply not_0_IZR; lia).
  destruct (Req_dec_T (IZR size) 0) as [H0|_]; [contradiction|].
  cbn [mbind option_bind]. eexists. split; [reflexivity|].
  unfold byte_pixel. cbn [fst snd].
  set (q := IZR y / IZR size * 10 * PI * 2).
  pose proof (Rabs_pos (sin q)) as Hp.
  assert (Hq : Rabs (sin q) <= 1) by (apply Rabs_le, SIN_bound).
  pose proof (SIN_bound (IZR x * 0.01)) as Hx.
  split; [|split].
  - channel 150%Z 200%Z.
  - channel 115%Z 150%Z.
  - channel 92%Z 120%Z.
Qed.

Lemma saturn_pixel_byte (size x y : Z) :
  (0 < size)%Z ->
  exists p, TextureGenerator.saturn_pixel size x y = Some p /\ byte_pixel p.
Proof.
  intros Hsize. unfold TextureGenerator.saturn_pixel, div.
  assert (Hs : IZR size <> 0) by (apply not_0_IZR; lia).
  destruct (Req_dec_T (IZR size) 0) as [H0|_]; [contradiction|].
  cbn [mbind option_bind]. eexists. split; [reflexivity|].
  unfold byte_pixel. cbn [fst snd].
  set (q := IZR y / IZR size * 5 * PI).
  pose proof (Rabs_pos (sin q)) as Hp.
  assert (Hq : Rabs (sin q) <= 1) by (apply Rabs_le, SIN_bound).
  pose proof (SIN_bound (IZR x * 0.01)) as Hx.
  pose proof (COS_bound (IZR y * 0.01)) as Hy.
  set (noise := (sin (IZR x * 0.01) + cos (IZR y * 0.01)) * 0.1 + 0.9).
  set (band := Rabs (sin q) * 0.2 + 0.8).
  assert (Hnoise : 0.7 <= noise <= 1.1) by (unfold noise; lra).
  assert (Hband : 0.8 <= band <= 1) by (unfold band; lra).
  assert (Hprod : 0.56 <= noise * band <= 1.1) by nra.
  split; [|split].
  - channel 123%Z 242%Z.
  - channel 117%Z 231%Z.
  - channel 106%Z 209%Z.
Qed.

Lemma power_nonneg (x y : R) : 0 <= TextureGenerator.power x y.
Proof.
  unfold TextureGenerator.power. destruct (Req_dec_T x 0); [lra|].
  unfold Rpower. left. apply exp_pos.
Qed.

Lemma sun_pixel_byte (size x y : Z) :
  (2 <= size)%Z ->
  exists p, TextureGenerator.sun_pixel size x y = Some p /\ byte_pixel p.
Proof.
  intros Hsize. unfold TextureGenerator.sun_pixel, div.
  assert (Hc : IZR (size / 2) <> 0).
  { apply not_0_IZR. assert (1 <= size / 2)%Z by (apply Z.div_le_lower_bound; lia). lia. }
  destruct (Req_dec_T (IZR (size / 2)) 0) as [H0|_]; [contradiction|].
  cbn [mbind option_bind]. eexists. split; [reflexivity|].
  unfold byte_pixel. cbn [fst snd].
  set (ratio := sqrt _ / IZR (size / 2)).
  pose proof (power_nonneg ratio 0.8) as Hp.
  set (intensity := Rmax 0 (1.0 - TextureGenerator.power ratio 0.8)).
  assert (Hi : 0 <= intensity <= 1).
  { unfold intensity, Rmax. destruct (Rle_dec 0 (1.0 - TextureGenerator.power ratio 0.8)); lra. }
  split; [|split].
  - channel 0%Z 255%Z.
  - channel 0%Z 160%Z.
  - channel 0%Z 15%Z.
Qed.


(** The pixel [(x, y)] of a filled image is in row [y], column [x]. *)
Lemma mapM_lookup {A B} (f : A -> option B) (l : list A) :
  forall k i a, mapM f l = Some k -> l !! i = Some a ->
                exists b, k !! i = Some b /\ f a = Some b.
Proof.
  intros k i a Hk Hi. apply mapM_Some_1 in Hk.
  destruct (Forall2_lookup_l _ _ _ _ _ Hk Hi) as (b & Hb & Hf). eauto.
Qed.

Lemma range_lookup (size i : Z) :
  (0 <= i < size)%Z -> TextureGenerator.range size !! Z.to_nat i = Some i.
Proof.
  intros Hi. unfold TextureGenerator.range.
  rewrite list_lookup_fmap, lookup_seq_lt by lia. simpl. f_equal. lia.
Qed.

Lemma fill_lookup (size : Z) (f : Z -> Z -> option TextureGenerator.pixel)
    (img : TextureGenerator.image) (x y : Z) :
  TextureGenerator.fill size f = Some img ->
  (0 <= x < size)%Z -> (0 <= y < size)%Z ->
  exists row p, img !! Z.to_nat y = Some row /\ row !! Z.to_nat x = Some p /\ f x y = Some p.
Proof.
  intros Hfill Hx Hy. unfold TextureGenerator.fill in Hfill.
  destruct (mapM_lookup _ _ _ _ _ Hfill (range_lookup size y Hy)) as (row & Hrow & Hr).
  destruct (mapM_lookup _ _ _ _ _ Hr (range_lookup size x Hx)) as (p & Hp & Hf).
  eauto.
Qed.

Lemma filled_texture (size : Z) (f : Z -> Z -> option TextureGenerator.pixel)
    (P : TextureGenerator.pixel -> Prop) (file : string) :
  (forall x y, (0 <= x < size)%Z -> (0 <= y < size)%Z -> exists p, f x y = Some p /\ P p) ->
  exists img,
    (img ← TextureGenerator.fill size f; Some (TextureGenerator.texture_path file, img))
    = Some (TextureGenerator.texture_path file, img)
    /\ length img = Z.to_nat size
    /\ Forall (fun row => length row = Z.to_nat size /\ Forall P row) img
    /\ forall x y, (0 <= x < size)%Z -> (0 <= y < size)%Z ->
         exists row p, img !! Z.to_nat y = Some row /\ row !! Z.to_nat x = Some p
                       /\ f x y = Some p.
Proof.
  intros Hf. destruct (fill_all size f P Hf) as (img & Hfill & Hlen & Hrows).
  exists img. rewrite Hfill. cbn [mbind option_bind].
  split; [reflexivity|]. split; [exact Hlen|]. split; [exact Hrows|].
  intros x y. apply fill_lookup, Hfill.
Qed.






(** X21. [generate_all_textures] writes the files [_create_planets] reads.
    It returns seven images of 256 by 256 pixels, for the sun and the six
    planets, and the path [_create_planets] builds for each of its texture
    names is the path of one of them. *)
Theorem generated_files_cover_the_planets :
  exists files,
    TextureGenerator.generate_all_textures = Some files
    /\ map fst files
       = ["textures/sun.png"; "textures/mercury.png"; "textures/venus.png";
          "textures/earth.png"; "textures/mars.png"; "textures/jupiter.png";
          "textures/saturn.png"]
    /\ Forall (fun file => square_image 256 (snd file)) files
    /\ Forall (fun texture_name =>
                 In ("textures/" +:+ texture_name +:+ ".png") (map fst files))
         SolarSystemSimulator.texture_names.
Proof.
  assert (Hany : forall (f : Z -> Z -> option TextureGenerator.pixel) file,
             (forall x y, (0 <= x < 256)%Z -> (0 <= y < 256)%Z -> is_Some (f x y)) ->
             exists img,
               (img ← TextureGenerator.fill 256 f;
                Some (TextureGenerator.texture_path file, img))
               = Some (TextureGenerator.texture_path file, img)
               /\ square_image 256 img).
  { intros f file Hf.
    destruct (filled_texture 256 f (fun _ => True) file) as (img & Hgen & Hlen & Hrows & _).
    { intros x y Hx Hy. destruct (Hf x y Hx Hy) as [p Hp]. eauto. }
    exists img. split; [exact Hgen|]. split; assumption. }
  unfold TextureGenerator.generate_all_textures, TextureGenerator.generate_sun_texture,
    TextureGenerator.generate_mercury_texture, TextureGenerator.generate_venus_texture,
    TextureGenerator.generate_earth_texture, TextureGenerator.generate_mars_texture,
    TextureGenerator.generate_jupiter_texture, TextureGenerator.generate_saturn_texture.
  destruct (Hany (TextureGenerator.sun_pixel 256) "sun.png") as (sun & -> & Hsun).
  { intros x y _ _. destruct (sun_pixel_byte 256 x y) as (p & -> & _); [lia|eauto]. }
  destruct (Hany (fun x y => Some (TextureGenerator.mercury_pixel x y)) "mercury.png")
    as (mercury & -> & Hmercury); [eauto|].
  destruct (Hany (fun x y => Some (TextureGenerator.venus_pixel x y)) "venus.png")
    as (venus & -> & Hvenus); [eauto|].
  destruct (Hany (fun x y => Some (TextureGenerator.earth_pixel x y)) "earth.png")
    as (earth & -> & Hearth); [eauto|].
  destruct (Hany (fun x y => Some (TextureGenerator.mars_pixel x y)) "mars.png")
    as (mars & -> & Hmars); [eauto|].
  destruct (Hany (TextureGenerator.jupiter_pixel 256) "jupiter.png")
    as (jupiter & -> & Hjupiter).
  { intros x y _ _. destruct (jupiter_pixel_byte 256 x y) as (p & -> & _); [lia|eauto]. }
  destruct (Hany (TextureGenerator.saturn_pixel 256) "saturn.png")
    as (saturn & -> & Hsaturn).
  { intros x y _ _. destruct (saturn_pixel_byte 256 x y) as (p & -> & _); [lia|eauto]. }
  cbn [mbind option_bind]. eexists. split; [reflexivity|].
  split; [reflexivity|]. split.
  - repeat (constructor; [assumption|]). constructor.
  - repeat (constructor; [cbv; tauto|]). constructor.
Qed.

(** *** The toggles *)

Lemma handle_event_toggles (s s' : Simulator.t) (e : Simulator.Event) :
  Simulator.handle_event s e = Some s' ->
  Simulator.paused s' = xorb (Simulator.paused s) (Nat.odd (presses Simulator.K_p [e]))
  /\ Simulator.show_orbits s'
     = xorb (Simulator.show_orbits s) (Nat.odd (presses Simulator.K_o [e]))
  /\ length (Simulator.stdout s')
     = (length (Simulator.stdout s) + presses Simulator.K_p [e] + presses Simulator.K_o [e])%nat.
Proof.
  destruct e as [|k|b|]; cbn [Simulator.handle_event].
  - intros [= <-]. simpl. rewrite !xorb_false_r. (split; [reflexivity|split; [reflexivity|simpl; lia]]).
  - destruct k; cbn [mbind option_bind].
    + intros [= <-]. simpl. rewrite !xorb_false_r. (split; [reflexivity|split; [reflexivity|simpl; lia]]).
    + destruct (Camera.reset_view (Simulator.camera s)); [|discriminate].
      intros [= <-]. simpl. rewrite !xorb_false_r. (split; [reflexivity|split; [reflexivity|simpl; lia]]).
    + intros [= <-]. simpl. rewrite length_app, xorb_false_r, xorb_true_r. simpl.
      split; [reflexivity|]. split; [reflexivity|lia].
    + intros [= <-]. simpl. rewrite length_app, xorb_false_r, xorb_true_r. simpl.
      split; [reflexivity|]. split; [reflexivity|lia].
    + intros [= <-]. simpl. rewrite !xorb_false_r. (split; [reflexivity|split; [reflexivity|simpl; lia]]).
  - destruct (Z.eq_dec b 4%Z); [|destruct (Z.eq_dec b 5%Z)];
      intros [= <-]; simpl; rewrite !xorb_false_r; (split; [reflexivity|split; [reflexivity|simpl; lia]]).
  - intros [= <-]. simpl. rewrite !xorb_false_r. (split; [reflexivity|split; [reflexivity|simpl; lia]]).
Qed.

Lemma presses_cons (key : Simulator.Key) (e : Simulator.Event) (evs : list Simulator.Event) :
  presses key (e :: evs) = (presses key [e] + presses key evs)%nat.
Proof. destruct e as [|k|b|]; simpl; try reflexivity. lia. Qed.

(** X3. The pause and orbit flags count key presses.  After a list of
    events is handled, the simulator is paused exactly when it was paused
    before and P went down an even number of times, or was not and P went
    down an odd number of times; the same holds for the orbit display and O;
    one line is printed per press of P or O and none otherwise; and the
    planets are untouched. *)
Theorem toggles_follow_the_parity_of_presses (evs : list Simulator.Event) :
  forall s s',
    Simulator.handle_events s evs = Some s' ->
    Simulator.paused s' = xorb (Simulator.paused s) (Nat.odd (presses Simulator.K_p evs))
    /\ Simulator.show_orbits s'
       = xorb (Simulator.show_orbits s) (Nat.odd (presses Simulator.K_o evs))
    /\ length (Simulator.stdout s')
       = (length (Simulator.stdout s) + presses Simulator.K_p evs
          + presses Simulator.K_o evs)%nat
    /\ Simulator.planets s' = Simulator.planets s.
Proof.
  induction evs as [|e evs IH]; intros s s' Hevs.
  - injection Hevs as <-. simpl. rewrite !xorb_false_r.
    split; [reflexivity|]. split; [reflexivity|]. split; [lia|reflexivity].
  - cbn [Simulator.handle_events] in Hevs.
    destruct (Simulator.handle_event s e) as [s1|] eqn:He; [|discriminate].
    cbn [mbind option_bind] in Hevs.
    destruct (handle_event_toggles _ _ _ He) as (Hp1 & Ho1 & Hout1).
    destruct (IH _ _ Hevs) as (Hp & Ho & Hout & Hpl).
    rewrite (presses_cons Simulator.K_p), (presses_cons Simulator.K_o), !Nat.odd_add.
    rewrite Hp, Ho, Hout, Hpl, Hp1, Ho1, Hout1, (handle_event_planets _ _ _ He).
    rewrite !xorb_assoc. split; [reflexivity|]. split; [reflexivity|]. split; [lia|reflexivity].
Qed.

Lemma toggles_after_two_presses :
  exists s',
    Simulator.handle_events (Simulator.mk true false true default_camera two_planets 0 [])
      [Simulator.KEYDOWN Simulator.K_p; Simulator.KEYDOWN Simulator.K_p] = Some s'
    /\ Simulator.paused s' = false
    /\ length (Simulator.stdout s') = 2%nat.
Proof.
  eexists.
  refine ((fun Hev =>
             conj Hev (conj (proj1 (toggles_follow_the_parity_of_presses _ _ _ Hev))
                         (proj1 (proj2 (proj2
                            (toggles_follow_the_parity_of_presses _ _ _ Hev)))))) _).
  reflexivity.
Defined.
